(** * PCPartPickerBD: result ranking, grouping, price display, compare list

    A shallow embedding of the client-side logic of the two pages

    - the component selection page, [ComponentSelectionPage]
      ([applyFilters], [prioritizeExactMatches], the grouped result
      sections, the available sources and the source buttons,
      [renderPrice]);
    - [src/app/page.tsx], the search page ([addToCompare], the retailer
      blocks of the results area, [renderPrice]).

    JavaScript strings are sequences of UTF-16 code units; objects held in
    arrays are references into a store, and [Array.prototype.includes]
    compares references.  The ranker is given twice: on components of the
    declared type, and on the objects of a response, whose fields may be
    absent and whose name, when read, may raise. *)

From Stdlib Require Import NArith String Ascii.
From stdpp Require Import base decidable list sorting gmap sets.

Local Open Scope N_scope.

(** ** JavaScript strings *)

Module JSString.

(** A string value: its UTF-16 code units. [===] on strings is equality
    of these sequences. *)
Definition t : Type := list N.

(** The string literal made of the (7-bit) characters of [s]. *)
Definition lit (s : string) : t :=
  (λ a, N_of_ascii a) <$> list_ascii_of_string s.

(** Truthiness of a string used as a condition: non-empty. *)
Definition truthy (s : t) : bool :=
  match s with [] => false | _ :: _ => true end.

(** Code units stripped by [trim]: ECMAScript WhiteSpace and
    LineTerminator (TAB, LF, VT, FF, CR, SP, NBSP, U+1680,
    U+2000..U+200A, LS, PS, U+202F, U+205F, U+3000, U+FEFF). *)
Definition isWhiteSpace (c : N) : bool :=
  ((9 <=? c) && (c <=? 13)) || (c =? 32) || (c =? 160) || (c =? 5760)
  || ((8192 <=? c) && (c <=? 8202)) || (c =? 8232) || (c =? 8233)
  || (c =? 8239) || (c =? 8287) || (c =? 12288) || (c =? 65279).

Fixpoint trimStart (s : t) : t :=
  match s with
  | [] => []
  | c :: s' => if isWhiteSpace c then trimStart s' else s
  end.

Definition trimEnd (s : t) : t := reverse (trimStart (reverse s)).

(** [s.trim()] *)
Definition trim (s : t) : t := trimEnd (trimStart s).

(** [s.startsWith(p)] *)
Fixpoint startsWith (s p : t) {struct p} : bool :=
  match p, s with
  | [], _ => true
  | _ :: _, [] => false
  | b :: p', a :: s' => bool_decide (a = b) && startsWith s' p'
  end.

(** [s.includes(p)]: [p] occurs in [s] at some position. *)
Fixpoint includes (s p : t) : bool :=
  startsWith s p ||
  match s with
  | [] => false
  | _ :: s' => includes s' p
  end.

(** [s.split(sep)] for a separator that is one code unit long. *)
Fixpoint split (sep : N) (s : t) : list t :=
  match s with
  | [] => [[]]
  | c :: s' =>
      if bool_decide (c = sep) then [] :: split sep s'
      else match split sep s' with
           | [] => [[c]]
           | seg :: segs => (c :: seg) :: segs
           end
  end.

(** [toLowerCase] restricted to the Basic Latin block: on a string whose
    code units are all below 128 this is what [String.prototype.toLowerCase]
    computes (A..Z go to a..z, everything else is kept). *)
Definition lowerLatin (c : N) : N :=
  if (65 <=? c) && (c <=? 90) then c + 32 else c.

Definition toLowerCaseLatin (s : t) : t := lowerLatin <$> s.

End JSString.

Abbreviation jsstring := JSString.t.

(** ** The component selection page *)

(** [interface Component] *)
Record Component := mkComponent {
  name : jsstring;
  price : jsstring;
  image : jsstring;
  availability : jsstring;
  source : jsstring;
  url : jsstring;
  specs : option (list (jsstring * jsstring))
}.

(** An array of components holds references; two array slots may hold the
    same object. *)
Definition ref : Type := positive.

(** The groups [prioritizeExactMatches] fills, and the set of sources it
    tracks. *)
Record groups := mkGroups {
  exactMatches : list ref;
  startsWithMatches : list ref;
  containsMatches : list ref;
  otherMatches : list ref;
  sourcesWithExactMatches : gset jsstring
}.

Definition noGroups : groups := mkGroups [] [] [] [] ∅.

(** The three result sections drawn when [searchQuery] is truthy. *)
Record sections := mkSections {
  exact : list ref;
  similar : list ref;
  other : list ref
}.

(** What the results area shows: the skeletons while loading, else the
    error message, else the "No components found matching your filters."
    notice, else the sections that have an item (heading and cards) when
    searching, the plain grid otherwise. *)
Inductive resultsView :=
| Loading
| Failed (message : jsstring)
| NoComponentsFound
| Grouped (drawn : list (jsstring * list ref))
| Plain (all : list ref).

(** A section is drawn when [some] finds an item for it, that is when its
    list is not empty. *)
Definition drawnSections (s : sections) : list (jsstring * list ref) :=
  filter (λ section, (0 <? length section.2)%nat)
    [(JSString.lit "Exact Matches", exact s);
     (JSString.lit "Similar Matches", similar s);
     (JSString.lit "Other Related Results", other s)].

(** The match quality of a name against the query, best first. *)
Inductive tier := Exact | StartsWith | Contains | Other.

#[export] Instance tier_eq_dec : EqDecision tier.
Proof. solve_decision. Defined.

(** The position of a tier in the output of [prioritizeExactMatches]. *)
Definition tierRank (t : tier) : nat :=
  match t with Exact => 0 | StartsWith => 1 | Contains => 2 | Other => 3 end.

(** [Array.from(new Set(xs))]: the distinct values of [xs], each at the
    place of its first occurrence. *)
Definition setFrom (xs : list jsstring) : list jsstring :=
  fold_left (λ seen x, if bool_decide (x ∈ seen) then seen else seen ++ [x]) xs [].

(** The retailers the source filter has a button for, in the order the
    buttons are drawn. *)
Definition knownSources : list jsstring :=
  [JSString.lit "Startech"; JSString.lit "Techland"; JSString.lit "UltraTech";
   JSString.lit "Potaka IT"; JSString.lit "PC House"].

(** The source buttons drawn besides "All": each one is guarded by
    [availableSources.includes(...)], and sets [selectedSource] to its
    retailer when clicked. *)
Definition sourceButtons (availableSources : list jsstring) : list jsstring :=
  filter (λ s, s ∈ availableSources) knownSources.

Section Ranker.

(** [String.prototype.toLowerCase] is the host's: its case tables are not
    part of the repository, and nothing below depends on them. *)
Variable toLowerCase : jsstring → jsstring.

(** The store: the object a reference points to.  Components are never
    written to by the page. *)
Variable heap : ref → Component.

(** [query.toLowerCase().trim()] *)
Definition normalizedQuery (query : jsstring) : jsstring :=
  JSString.trim (toLowerCase query).

(** [component.name.toLowerCase()] *)
Definition normalizedName (component : ref) : jsstring :=
  toLowerCase (name (heap component)).

(** Body of the first [forEach]. *)
Definition firstPassStep (nq : jsstring) (g : groups) (component : ref) : groups :=
  if bool_decide (normalizedName component = nq) then
    mkGroups (exactMatches g ++ [component]) (startsWithMatches g)
             (containsMatches g) (otherMatches g)
             ({[ source (heap component) ]} ∪ sourcesWithExactMatches g)
  else g.

(** Body of the second [forEach]; [exactMatches.includes(component)] looks
    the reference up in the group as it is at that moment. *)
Definition secondPassStep (nq : jsstring) (g : groups) (component : ref) : groups :=
  if bool_decide (component ∈ exactMatches g) then g
  else if bool_decide (normalizedName component = nq)
          && negb (bool_decide (source (heap component) ∈ sourcesWithExactMatches g))
  then
    mkGroups (exactMatches g ++ [component]) (startsWithMatches g)
             (containsMatches g) (otherMatches g)
             ({[ source (heap component) ]} ∪ sourcesWithExactMatches g)
  else if JSString.startsWith (normalizedName component) nq then
    mkGroups (exactMatches g) (startsWithMatches g ++ [component])
             (containsMatches g) (otherMatches g) (sourcesWithExactMatches g)
  else if JSString.includes (normalizedName component) nq then
    mkGroups (exactMatches g) (startsWithMatches g)
             (containsMatches g ++ [component]) (otherMatches g)
             (sourcesWithExactMatches g)
  else
    mkGroups (exactMatches g) (startsWithMatches g)
             (containsMatches g) (otherMatches g ++ [component])
             (sourcesWithExactMatches g).

(** The four groups after both passes. *)
Definition matchGroups (components : list ref) (query : jsstring) : groups :=
  let nq := normalizedQuery query in
  let g1 := fold_left (firstPassStep nq) components noGroups in
  fold_left (secondPassStep nq) components g1.

Definition prioritizeExactMatches (components : list ref) (query : jsstring)
  : list ref :=
  let g := matchGroups components query in
  exactMatches g ++ startsWithMatches g ++ containsMatches g ++ otherMatches g.

(** Truthiness of a [string | null] state variable. *)
Definition selected (s : option jsstring) : bool :=
  match s with
  | Some v => JSString.truthy v
  | None => false
  end.

(** [applyFilters], with the page state it reads passed in; the value is
    what it hands to [setFilteredComponents]. *)
Definition applyFilters (selectedSource selectedAvailability : option jsstring)
    (searchQuery : jsstring) (componentsToFilter : list ref) : list ref :=
  let result := componentsToFilter in
  let result :=
    if selected selectedSource
    then filter (λ c, Some (source (heap c)) = selectedSource) result
    else result in
  let result :=
    if selected selectedAvailability
    then filter (λ c, Some (availability (heap c)) = selectedAvailability) result
    else result in
  if JSString.truthy (JSString.trim searchQuery)
  then prioritizeExactMatches result searchQuery
  else result.

(** The ranking proper: [applyFilters] with no source and no availability
    selected. *)
Definition rank (items : list ref) (query : jsstring) : list ref :=
  applyFilters None None query items.

(** The filters of the three sections. *)
Definition categorize (filteredComponents : list ref) (searchQuery : jsstring)
  : sections :=
  let q := toLowerCase searchQuery in
  mkSections
    (filter (λ c, normalizedName c = q) filteredComponents)
    (filter (λ c, JSString.startsWith (normalizedName c) q ∧ normalizedName c ≠ q)
            filteredComponents)
    (filter (λ c, ¬ JSString.startsWith (normalizedName c) q ∧ normalizedName c ≠ q)
            filteredComponents).

(** The results area, from the page state [loading], [error],
    [filteredComponents] and [searchQuery]. *)
Definition renderResults (loading : bool) (error : jsstring)
    (filteredComponents : list ref) (searchQuery : jsstring) : resultsView :=
  if loading then Loading
  else if JSString.truthy error then Failed error
  else if (length filteredComponents =? 0)%nat then NoComponentsFound
  else if JSString.truthy searchQuery
  then Grouped (drawnSections (categorize filteredComponents searchQuery))
  else Plain filteredComponents.

(** The branch of the second pass an object that is not skipped falls into,
    read off the chain of conditions: the tier of a component. *)
Definition tierOf (nq : jsstring) (component : ref) : tier :=
  if bool_decide (normalizedName component = nq) then Exact
  else if JSString.startsWith (normalizedName component) nq then StartsWith
  else if JSString.includes (normalizedName component) nq then Contains
  else Other.

(** The members of a tier, in input order. *)
Definition inTier (nq : jsstring) (t : tier) (items : list ref) : list ref :=
  filter (λ c, tierOf nq c = t) items.

(** What the two filters of [applyFilters] let through, given the page
    state. *)
Definition passes (selectedSource selectedAvailability : option jsstring)
    (c : ref) : Prop :=
  (selected selectedSource → Some (source (heap c)) = selectedSource)
  ∧ (selected selectedAvailability →
       Some (availability (heap c)) = selectedAvailability).

#[export] Instance passes_dec selectedSource selectedAvailability c :
  Decision (passes selectedSource selectedAvailability c).
Proof. unfold passes. apply _. Defined.

(** The value [fetchComponents] gives to [setAvailableSources]. *)
Definition availableSourcesOf (componentsData : list ref) : list jsstring :=
  setFrom ((λ comp, source (heap comp)) <$> componentsData).

End Ranker.

(** *** The ranker on objects as they arrive *)

(** How a piece of the page ends: with a value, or with the [TypeError] of
    a method call on [undefined]. *)
Inductive outcome (A : Type) :=
| Returned (a : A)
| TypeError.

Arguments Returned {A} a.
Arguments TypeError {A}.

(** The two fields the ranker reads, as [response.json()] delivers them:
    the interface is not checked at run time, and a field the response
    lacks reads as [undefined]. *)
Record RawComponent := mkRaw {
  nameField : option jsstring;
  sourceField : option jsstring
}.

Record rawGroups := mkRawGroups {
  rawExactMatches : list ref;
  rawStartsWithMatches : list ref;
  rawContainsMatches : list ref;
  rawOtherMatches : list ref;
  rawSourcesWithExactMatches : gset (option jsstring)
}.

Definition noRawGroups : rawGroups := mkRawGroups [] [] [] [] ∅.

(** [array.forEach(f)] with a callback that may throw: the first throw ends
    the loop. *)
Fixpoint forEach {A} (f : A → ref → outcome A) (l : list ref) (a : A)
  : outcome A :=
  match l with
  | [] => Returned a
  | c :: l' =>
      match f a c with
      | Returned a' => forEach f l' a'
      | TypeError => TypeError
      end
  end.

(** [array.filter(p)] with a callback that may throw. *)
Fixpoint filterThrowing (p : ref → outcome bool) (l : list ref)
  : outcome (list ref) :=
  match l with
  | [] => Returned []
  | c :: l' =>
      match p c with
      | TypeError => TypeError
      | Returned b =>
          match filterThrowing p l' with
          | TypeError => TypeError
          | Returned kept => Returned (if b then c :: kept else kept)
          end
      end
  end.

Section RawRanker.

Variable toLowerCase : jsstring → jsstring.

(** The store of the objects of the response. *)
Variable rawHeap : ref → RawComponent.

(** [component.name.toLowerCase()] *)
Definition lowerName (component : ref) : outcome jsstring :=
  match nameField (rawHeap component) with
  | Some n => Returned (toLowerCase n)
  | None => TypeError
  end.

Definition firstPassStepRaw (nq : jsstring) (g : rawGroups) (component : ref)
  : outcome rawGroups :=
  match lowerName component with
  | TypeError => TypeError
  | Returned normalizedName =>
      Returned
        (if bool_decide (normalizedName = nq) then
           mkRawGroups (rawExactMatches g ++ [component])
             (rawStartsWithMatches g) (rawContainsMatches g) (rawOtherMatches g)
             ({[ sourceField (rawHeap component) ]}
              ∪ rawSourcesWithExactMatches g)
         else g)
  end.

(** The early [return] for an object already among the exact matches comes
    before its name is read. *)
Definition secondPassStepRaw (nq : jsstring) (g : rawGroups) (component : ref)
  : outcome rawGroups :=
  if bool_decide (component ∈ rawExactMatches g) then Returned g
  else
    match lowerName component with
    | TypeError => TypeError
    | Returned normalizedName =>
        Returned
          (if bool_decide (normalizedName = nq)
              && negb (bool_decide (sourceField (rawHeap component)
                                    ∈ rawSourcesWithExactMatches g))
           then
             mkRawGroups (rawExactMatches g ++ [component])
               (rawStartsWithMatches g) (rawContainsMatches g)
               (rawOtherMatches g)
               ({[ sourceField (rawHeap component) ]}
                ∪ rawSourcesWithExactMatches g)
           else if JSString.startsWith normalizedName nq then
             mkRawGroups (rawExactMatches g)
               (rawStartsWithMatches g ++ [component])
               (rawContainsMatches g) (rawOtherMatches g)
               (rawSourcesWithExactMatches g)
           else if JSString.includes normalizedName nq then
             mkRawGroups (rawExactMatches g) (rawStartsWithMatches g)
               (rawContainsMatches g ++ [component]) (rawOtherMatches g)
               (rawSourcesWithExactMatches g)
           else
             mkRawGroups (rawExactMatches g) (rawStartsWithMatches g)
               (rawContainsMatches g) (rawOtherMatches g ++ [component])
               (rawSourcesWithExactMatches g))
    end.

Definition prioritizeExactMatchesRaw (components : list ref) (query : jsstring)
  : outcome (list ref) :=
  let nq := JSString.trim (toLowerCase query) in
  match forEach (firstPassStepRaw nq) components noRawGroups with
  | TypeError => TypeError
  | Returned g1 =>
      match forEach (secondPassStepRaw nq) components g1 with
      | TypeError => TypeError
      | Returned g =>
          Returned (rawExactMatches g ++ rawStartsWithMatches g
                    ++ rawContainsMatches g ++ rawOtherMatches g)
      end
  end.

(** [applyFilters] with no source and no availability selected. *)
Definition rankRaw (items : list ref) (query : jsstring) : outcome (list ref) :=
  if JSString.truthy (JSString.trim query)
  then prioritizeExactMatchesRaw items query
  else Returned items.

(** A test on the lower-cased name, as the callbacks of the sections make
    it. *)
Definition nameTest (test : jsstring → bool) (c : ref) : outcome bool :=
  match lowerName c with
  | TypeError => TypeError
  | Returned n => Returned (test n)
  end.

(** The filters of the three sections. *)
Definition categorizeRaw (filteredComponents : list ref) (searchQuery : jsstring)
  : outcome sections :=
  let q := toLowerCase searchQuery in
  match filterThrowing (nameTest (λ n, bool_decide (n = q))) filteredComponents with
  | TypeError => TypeError
  | Returned exactItems =>
      match filterThrowing
              (nameTest (λ n, JSString.startsWith n q && negb (bool_decide (n = q))))
              filteredComponents with
      | TypeError => TypeError
      | Returned similarItems =>
          match filterThrowing
                  (nameTest (λ n, negb (JSString.startsWith n q)
                                  && negb (bool_decide (n = q))))
                  filteredComponents with
          | TypeError => TypeError
          | Returned otherItems =>
              Returned (mkSections exactItems similarItems otherItems)
          end
      end
  end.

End RawRanker.

(** *** Price display *)

(** The currency marker, U+09F3 (one code unit). *)
Definition taka : N := 2547.

(** How many times the code unit [c] occurs in [s]. *)
Definition occurrences (c : N) (s : jsstring) : nat :=
  length (filter (λ x, x = c) (s : list N)).

(** What [renderPrice] draws: the current price in bold above the original
    one struck through, or the price text as it is. *)
Inductive priceView :=
| DualPrice (current original : jsstring)
| RegularPrice (text : jsstring).

(** [renderPrice]; the search page's copy differs only in reading
    [product.price]. *)
Definition renderPrice (price : jsstring) : priceView :=
  if JSString.includes price [taka]
     && (2 <? length (JSString.split taka price))%nat
  then
    let prices :=
      filter (λ p, JSString.truthy (JSString.trim p)) (JSString.split taka price) in
    if (2 <=? length prices)%nat
    then DualPrice (taka :: JSString.trim (nth 0 prices []))
                   (taka :: JSString.trim (nth 1 prices []))
    else RegularPrice price
  else RegularPrice price.

(** ** The search page *)

Module Home.

(** [interface Product] *)
Record Product := mkProduct {
  name : jsstring;
  price : jsstring;
  image : jsstring;
  availability : jsstring;
  source : jsstring;
  url : jsstring
}.

(** The pair the compare list tells products apart by. *)
Definition key (p : Product) : jsstring * jsstring := (name p, source p).

(** [addToCompare]: the next value of the [compareList] state (the state is
    left as it is when the product is already listed). *)
Definition addToCompare (compareList : list Product) (product : Product)
  : list Product :=
  if negb (existsb (λ item, bool_decide (name item = name product)
                            && bool_decide (source item = source product))
                   compareList)
  then compareList ++ [product]
  else compareList.

(** [products.filter((product) => product.source === s)] *)
Definition fromSource (s : jsstring) (products : list Product) : list Product :=
  filter (λ product, source product = s) products.

Definition startechProducts := fromSource (JSString.lit "Startech").
Definition techlandProducts := fromSource (JSString.lit "Techland").
Definition ultratechProducts := fromSource (JSString.lit "UltraTech").
Definition potakaitProducts := fromSource (JSString.lit "Potaka IT").
Definition pchouseProducts := fromSource (JSString.lit "PC House").
Definition skylandProducts := fromSource (JSString.lit "Skyland").

(** The six retailer blocks, heading and cards, in page order. *)
Definition retailerBlocks (products : list Product)
  : list (jsstring * list Product) :=
  [(JSString.lit "StarTech", startechProducts products);
   (JSString.lit "TechLand", techlandProducts products);
   (JSString.lit "UltraTech", ultratechProducts products);
   (JSString.lit "Potaka IT", potakaitProducts products);
   (JSString.lit "PC House", pchouseProducts products);
   (JSString.lit "Skyland", skylandProducts products)].

(** A block is drawn when its list has [length > 0]. *)
Definition shownBlocks (products : list Product)
  : list (jsstring * list Product) :=
  filter (λ block, (0 <? length block.2)%nat) (retailerBlocks products).

(** The product cards on the page, top to bottom. *)
Definition shownCards (products : list Product) : list Product :=
  concat (snd <$> shownBlocks products).

(** The sources that have a block. *)
Definition retailers : list jsstring :=
  [JSString.lit "Startech"; JSString.lit "Techland"; JSString.lit "UltraTech";
   JSString.lit "Potaka IT"; JSString.lit "PC House"; JSString.lit "Skyland"].

(** The results section of the page. *)
Inductive resultsArea :=
| Skeletons
| Blocks (blocks : list (jsstring * list Product))
| NoProductsFound
| Nothing.

Definition renderResultsArea (loading : bool) (products : list Product)
  : resultsArea :=
  if loading && (length products =? 0)%nat then Skeletons
  else if (0 <? length products)%nat then Blocks (shownBlocks products)
  else if negb loading then NoProductsFound
  else Nothing.

End Home.

(** ** Sample data *)

Definition item (n s : string) : Component :=
  mkComponent (JSString.lit n) [] [] (JSString.lit "In Stock") (JSString.lit s) [] None.

(** Three retailers' listings for one search. *)
Definition shelf (r : ref) : Component :=
  match r with
  | 1%positive => item "RTX 4060" "Startech"
  | 2%positive => item "RTX 4060 Ti" "Techland"
  | _ => item "ASUS RTX 4060" "PC House"
  end.

(** One retailer listing the same name twice (two objects). *)
Definition twins (r : ref) : Component := item "RTX 4060" "Startech".

(** A name that carries a leading blank. *)
Definition padded (r : ref) : Component := item " RTX 4060" "Startech".

Definition ryzen (r : ref) : Component := item "Ryzen 5 5600X" "Startech".

(** The price text of the code's own remark: two marked amounts. *)
Definition twoAmounts : jsstring :=
  taka :: JSString.lit " 12,500 " ++ taka :: JSString.lit " 13,000".

Definition product (n s : string) : Home.Product :=
  Home.mkProduct (JSString.lit n) [] [] [] (JSString.lit s) [].

(** A listing by a retailer the search page has no block for. *)
Definition stray : Home.Product := product "RTX 4060" "Ryans".

(** Names none of which contains the query ["RTX 4060"]. *)
Definition others (r : ref) : Component :=
  match r with
  | 1%positive => item "RX 7600" "Startech"
  | _ => item "Arc A750" "Techland"
  end.

(** A name that only contains the query, then the query behind a blank. *)
Definition mixed (r : ref) : Component :=
  match r with
  | 1%positive => item "ASUS RTX 4060" "PC House"
  | _ => item " RTX 4060" "Startech"
  end.

(** The shelf as it arrives, with no source on any object. *)
Definition shelfArrived (r : ref) : RawComponent :=
  mkRaw (Some (name (shelf r))) None.

(** A response whose objects have no name. *)
Definition anonymous (r : ref) : RawComponent :=
  mkRaw None (Some (JSString.lit "Startech")).

(** * Properties *)

(** ** Strings *)

Example lit_rtx : JSString.lit "RTX" = [82; 84; 88].
Proof. reflexivity. Qed.

Example trim_example :
  JSString.trim (JSString.lit "  ryzen 5 ") = JSString.lit "ryzen 5".
Proof. reflexivity. Qed.

Example split_example :
  JSString.split 44 (JSString.lit "a,b,,c") =
  [JSString.lit "a"; JSString.lit "b"; []; JSString.lit "c"].
Proof. reflexivity. Qed.

Example includes_example :
  JSString.includes (JSString.lit "asus rtx 4060") (JSString.lit "rtx 4060") = true
  ∧ JSString.startsWith (JSString.lit "asus rtx 4060") (JSString.lit "rtx 4060") = false.
Proof. split; reflexivity. Qed.


Lemma trimStart_nil_iff s :
  JSString.trimStart s = [] ↔ Forall (λ c, JSString.isWhiteSpace c = true) s.
Proof.
  induction s as [|c s IH]; simpl.
  - split; [constructor | reflexivity].
  - destruct (JSString.isWhiteSpace c) eqn:Hc.
    + rewrite IH. split.
      * intros Hs. by constructor.
      * by inversion 1.
    + split; [discriminate |].
      inversion 1 as [|? ? Hw _]. rewrite Hc in Hw. discriminate.
Qed.

Lemma trimStart_head s c s' :
  JSString.trimStart s = c :: s' → JSString.isWhiteSpace c = false.
Proof.
  induction s as [|a s IH]; simpl; [discriminate |].
  destruct (JSString.isWhiteSpace a) eqn:Ha; [exact IH |].
  congruence.
Qed.

(** A string trims to the empty string exactly when it is made of white
    space only. *)
Lemma trim_nil_iff s :
  JSString.trim s = [] ↔ Forall (λ c, JSString.isWhiteSpace c = true) s.
Proof.
  unfold JSString.trim, JSString.trimEnd. split.
  - intros H. apply trimStart_nil_iff.
    destruct (JSString.trimStart s) as [|c s'] eqn:Hs; [done |].
    apply (f_equal reverse) in H. rewrite reverse_involutive in H.
    change (reverse []) with (@nil N) in H.
    apply trimStart_nil_iff in H.
    rewrite Forall_reverse in H.
    inversion H as [|? ? Hc _].
    apply trimStart_head in Hs. rewrite Hs in Hc. discriminate.
  - intros H. apply trimStart_nil_iff in H. by rewrite H.
Qed.

Lemma truthy_true s : JSString.truthy s = true ↔ s ≠ [].
Proof. by destruct s. Qed.

(** ** The two passes of [prioritizeExactMatches] *)

Section RankerFacts.

Variable toLowerCase : jsstring → jsstring.
Variable heap : ref → Component.

Local Abbreviation nameOf := (normalizedName toLowerCase heap).
Local Abbreviation tierOf := (tierOf toLowerCase heap).
Local Abbreviation inTier := (inTier toLowerCase heap).
Local Abbreviation firstPassStep := (firstPassStep toLowerCase heap).
Local Abbreviation secondPassStep := (secondPassStep toLowerCase heap).
Local Abbreviation matchGroups := (matchGroups toLowerCase heap).
Local Abbreviation prioritizeExactMatches := (prioritizeExactMatches toLowerCase heap).
Local Abbreviation rank := (rank toLowerCase heap).
Local Abbreviation normalizedQuery := (normalizedQuery toLowerCase).

Lemma tierOf_Exact nq c : tierOf nq c = Exact ↔ nameOf c = nq.
Proof.
  unfold tierOf. case_bool_decide; [done |].
  split; [| done]. by repeat case_match.
Qed.

Lemma tierOf_StartsWith nq c :
  tierOf nq c = StartsWith ↔
  nameOf c ≠ nq ∧ JSString.startsWith (nameOf c) nq = true.
Proof.
  unfold tierOf. case_bool_decide.
  - split; [done | by intros [? _]].
  - repeat case_match; split; (done || by intros [_ ?]).
Qed.

Lemma tierOf_Contains nq c :
  tierOf nq c = Contains ↔
  nameOf c ≠ nq ∧ JSString.startsWith (nameOf c) nq = false
  ∧ JSString.includes (nameOf c) nq = true.
Proof.
  unfold tierOf. case_bool_decide.
  - split; [done | by intros [? _]].
  - repeat case_match; split; (done || by intros (_ & ? & ?)).
Qed.

Lemma tierOf_Other nq c :
  tierOf nq c = Other ↔
  nameOf c ≠ nq ∧ JSString.startsWith (nameOf c) nq = false
  ∧ JSString.includes (nameOf c) nq = false.
Proof.
  unfold tierOf. case_bool_decide.
  - split; [done | by intros [? _]].
  - repeat case_match; split; (done || by intros (_ & ? & ?)).
Qed.

Lemma inTier_cons nq t c l :
  inTier nq t (c :: l) =
  if decide (tierOf nq c = t) then c :: inTier nq t l else inTier nq t l.
Proof. unfold inTier. by rewrite filter_cons. Qed.

Lemma elem_of_inTier nq t c l : c ∈ inTier nq t l ↔ tierOf nq c = t ∧ c ∈ l.
Proof. unfold inTier. by rewrite list_elem_of_filter. Qed.

(** The first pass collects the exact matches, in order, and touches no
    other group. *)
Lemma firstPass_groups nq l g :
  let g' := fold_left (firstPassStep nq) l g in
  exactMatches g' = exactMatches g ++ inTier nq Exact l
  ∧ startsWithMatches g' = startsWithMatches g
  ∧ containsMatches g' = containsMatches g
  ∧ otherMatches g' = otherMatches g.
Proof.
  revert g. induction l as [|c l IH]; intros g; simpl.
  - by rewrite app_nil_r.
  - rewrite inTier_cons. specialize (IH (firstPassStep nq g c)).
    simpl in IH. destruct IH as (IH1 & IH2 & IH3 & IH4).
    rewrite IH1, IH2, IH3, IH4. unfold firstPassStep.
    case_bool_decide as Hc; case_decide as Ht;
      rewrite tierOf_Exact in Ht; try done; simpl.
    by rewrite <- app_assoc.
Qed.

(** An object already among the exact matches is skipped. *)
Lemma secondPassStep_skip nq g c :
  c ∈ exactMatches g → secondPassStep nq g c = g.
Proof. intros Hc. unfold secondPassStep. by rewrite bool_decide_eq_true_2. Qed.

(** An object that is not skipped and whose name is not the query goes to
    the group of its tier; the exact matches and the sources stay. *)
Lemma secondPassStep_sort nq g c :
  c ∉ exactMatches g → tierOf nq c ≠ Exact →
  secondPassStep nq g c =
  mkGroups (exactMatches g)
    (startsWithMatches g ++ inTier nq StartsWith [c])
    (containsMatches g ++ inTier nq Contains [c])
    (otherMatches g ++ inTier nq Other [c])
    (sourcesWithExactMatches g).
Proof.
  intros Hc Ht. unfold secondPassStep.
  rewrite bool_decide_eq_false_2 by done.
  rewrite !inTier_cons. unfold inTier. rewrite !filter_nil.
  rewrite tierOf_Exact in Ht. unfold tierOf.
  rewrite (bool_decide_eq_false_2 _ Ht). simpl.
  destruct (JSString.startsWith _ _); simpl.
  - rewrite !app_nil_r. by destruct g.
  - destruct (JSString.includes _ _); simpl; rewrite !app_nil_r; by destruct g.
Qed.

Lemma secondPass_groups nq l g :
  (∀ c, c ∈ l → tierOf nq c = Exact → c ∈ exactMatches g) →
  (∀ c, c ∈ exactMatches g → tierOf nq c = Exact) →
  fold_left (secondPassStep nq) l g =
  mkGroups (exactMatches g)
    (startsWithMatches g ++ inTier nq StartsWith l)
    (containsMatches g ++ inTier nq Contains l)
    (otherMatches g ++ inTier nq Other l)
    (sourcesWithExactMatches g).
Proof.
  revert g. induction l as [|c l IH]; intros g Hin Hex; simpl.
  - unfold inTier. rewrite !filter_nil, !app_nil_r. by destruct g.
  - destruct (decide (c ∈ exactMatches g)) as [Hc | Hc].
    + rewrite secondPassStep_skip by done.
      rewrite IH; [| intros; apply Hin; [by right | done] | done].
      rewrite !inTier_cons. rewrite (Hex c Hc).
      by repeat case_decide.
    + assert (tierOf nq c ≠ Exact) as Ht.
      { intros Ht. apply Hc, Hin; [by left | done]. }
      rewrite secondPassStep_sort by done.
      rewrite IH; simpl.
      * rewrite <- !app_assoc. unfold inTier.
        by rewrite <- !filter_app.
      * intros; apply Hin; [by right | done].
      * done.
Qed.

(** The groups after both passes are the four tiers of the input. *)
Lemma matchGroups_tiers components query :
  let g := matchGroups components query in
  let nq := normalizedQuery query in
  exactMatches g = inTier nq Exact components
  ∧ startsWithMatches g = inTier nq StartsWith components
  ∧ containsMatches g = inTier nq Contains components
  ∧ otherMatches g = inTier nq Other components.
Proof.
  simpl. unfold matchGroups.
  set (nq := normalizedQuery query).
  destruct (firstPass_groups nq components noGroups) as (H1 & H2 & H3 & H4).
  simpl in *.
  rewrite secondPass_groups.
  - simpl. by rewrite H1, H2, H3, H4.
  - intros c Hc Ht. rewrite H1. by apply elem_of_inTier.
  - intros c. rewrite H1. intros Hc. by apply elem_of_inTier in Hc as [? _].
Qed.

Lemma prioritizeExactMatches_tiers components query :
  let nq := normalizedQuery query in
  prioritizeExactMatches components query =
  inTier nq Exact components ++ inTier nq StartsWith components
  ++ inTier nq Contains components ++ inTier nq Other components.
Proof.
  simpl. unfold prioritizeExactMatches.
  destruct (matchGroups_tiers components query) as (H1 & H2 & H3 & H4).
  simpl in *. by rewrite H1, H2, H3, H4.
Qed.

Lemma rank_blank items query :
  JSString.trim query = [] → rank items query = items.
Proof.
  intros H. unfold rank, applyFilters. simpl. by rewrite H.
Qed.

Lemma rank_searching items query :
  JSString.trim query ≠ [] →
  rank items query = prioritizeExactMatches items query.
Proof.
  intros H. unfold rank, applyFilters. simpl.
  by apply truthy_true in H as ->.
Qed.

(** ** Ranking: conservation, order, idempotence *)

Lemma tiers_permutation nq l :
  inTier nq Exact l ++ inTier nq StartsWith l
  ++ inTier nq Contains l ++ inTier nq Other l ≡ₚ l.
Proof.
  induction l as [|c l IH]; [done |].
  rewrite !inTier_cons.
  destruct (tierOf nq c); repeat case_decide; try done; simpl.
  - by constructor.
  - rewrite <- Permutation_middle. by constructor.
  - rewrite app_assoc, <- Permutation_middle, <- app_assoc. by constructor.
  - rewrite !app_assoc, <- Permutation_middle, <- !app_assoc. by constructor.
Qed.

Lemma inTier_inTier nq t u l :
  inTier nq t (inTier nq u l) = if decide (t = u) then inTier nq u l else [].
Proof.
  induction l as [|c l IH]; [by case_decide |].
  rewrite (inTier_cons nq u).
  destruct (decide (tierOf nq c = u)) as [Hu | Hu]; [| done].
  rewrite inTier_cons, IH.
  destruct (decide (t = u)) as [-> | Htu].
  - by rewrite decide_True.
  - rewrite decide_False; [done | congruence].
Qed.

Lemma inTier_app nq t l k : inTier nq t (l ++ k) = inTier nq t l ++ inTier nq t k.
Proof. apply filter_app. Qed.

Lemma rank_permutation items query : rank items query ≡ₚ items.
Proof.
  destruct (decide (JSString.trim query = [])) as [Hq | Hq].
  - by rewrite rank_blank.
  - rewrite rank_searching by done.
    rewrite prioritizeExactMatches_tiers. apply tiers_permutation.
Qed.

(** C2.  Ranking conserves the items: whatever the list and the query, the
    output of [rank] has the length of the input and is a permutation of
    it, so nothing is dropped and nothing is duplicated. *)
Theorem rank_conservation items query :
  length (rank items query) = length items ∧ rank items query ≡ₚ items.
Proof.
  split; [| apply rank_permutation].
  apply Permutation_length, rank_permutation.
Qed.

Lemma startsWith_refl s : JSString.startsWith s s = true.
Proof. induction s as [|a s IH]; simpl; [done |]. by rewrite bool_decide_eq_true_2. Qed.

(** C3, as amended.  For a query that is not blank, the output of [rank] is the group
    of exact matches, then the starts-with group, then the contains group,
    then the rest; the groups are the four tiers of the input, each listing
    its members in input order (it is a sublist of the input); and every
    occurrence of an item whose lower-cased name is the normalized query
    comes before every occurrence of an item whose name only contains it. *)
Theorem rank_tier_order items query :
  JSString.trim query ≠ [] →
  let nq := normalizedQuery query in
  let g := matchGroups items query in
  rank items query =
    exactMatches g ++ startsWithMatches g ++ containsMatches g ++ otherMatches g
  ∧ (exactMatches g = inTier nq Exact items
     ∧ startsWithMatches g = inTier nq StartsWith items
     ∧ containsMatches g = inTier nq Contains items
     ∧ otherMatches g = inTier nq Other items)
  ∧ (∀ t, inTier nq t items `sublist_of` items)
  ∧ (∀ a b i j,
       nameOf a = nq →
       JSString.includes (nameOf b) nq = true →
       JSString.startsWith (nameOf b) nq = false →
       rank items query !! i = Some a →
       rank items query !! j = Some b →
       (i < j)%nat).
Proof.
  intros Hq nq g.
  pose proof (matchGroups_tiers items query) as Hg. fold nq g in Hg.
  assert (rank items query =
    exactMatches g ++ startsWithMatches g ++ containsMatches g ++ otherMatches g)
    as Hr by by rewrite rank_searching.
  split; [done |]. split; [done |]. split.
  { intros t. apply sublist_filter. }
  destruct Hg as (H1 & H2 & H3 & H4).
  intros a b i j Ha Hb1 Hb2. rewrite Hr, H1, H2, H3, H4.
  intros Hi Hj.
  assert (tierOf nq a = Exact) as Hta by by apply tierOf_Exact.
  assert (tierOf nq b = Contains) as Htb.
  { apply tierOf_Contains. repeat split; try done.
    intros Hn. rewrite Hn, startsWith_refl in Hb2. done. }
  apply lookup_app_Some in Hi as [Hi | [_ Hi]].
  - apply lookup_lt_Some in Hi.
    apply lookup_app_Some in Hj as [Hj | [Hj _]]; [| lia].
    apply list_elem_of_lookup_2, elem_of_inTier in Hj as [Hj _]. congruence.
  - apply list_elem_of_lookup_2 in Hi.
    rewrite !elem_of_app, !elem_of_inTier in Hi.
    destruct Hi as [[Ht _] | [[Ht _] | [Ht _]]]; congruence.
Qed.

(** C4.  When the query is empty or made of white space only, [rank] gives
    back the list it was given: the same items in the same order. *)
Theorem rank_blank_query_identity items query :
  Forall (λ c, JSString.isWhiteSpace c = true) query →
  rank items query = items.
Proof. intros H. apply rank_blank. by apply trim_nil_iff. Qed.

(** C10.  Prioritizing an already prioritized list changes nothing. *)
Theorem prioritizeExactMatches_idempotent components query :
  prioritizeExactMatches (prioritizeExactMatches components query) query =
  prioritizeExactMatches components query.
Proof.
  rewrite !prioritizeExactMatches_tiers.
  set (nq := normalizedQuery query).
  rewrite !inTier_app, !inTier_inTier.
  repeat case_decide; try done.
  by rewrite !app_nil_r.
Qed.

(** ** Which items make the exact tier *)

Lemma inTier_Exact_filter nq l :
  inTier nq Exact l = filter (λ c, nameOf c = nq) l.
Proof. apply list_filter_iff. intros c. apply tierOf_Exact. Qed.

(** C1, as amended.  For a query that is not blank, the first group of
    [rank]'s output holds every item whose lower-cased name is the
    normalized query, in input order and whatever its source: of two such
    items from one source both are in the exact tier, and neither is in a
    later tier. *)
Theorem exact_tier_takes_every_exact_match items query :
  JSString.trim query ≠ [] →
  let g := matchGroups items query in
  let nq := normalizedQuery query in
  rank items query =
    exactMatches g ++ startsWithMatches g ++ containsMatches g ++ otherMatches g
  ∧ exactMatches g = filter (λ c, nameOf c = nq) items
  ∧ (∀ c, c ∈ items → nameOf c = nq →
       c ∈ exactMatches g
       ∧ c ∉ startsWithMatches g ++ containsMatches g ++ otherMatches g).
Proof.
  intros Hq g nq.
  destruct (matchGroups_tiers items query) as (H1 & H2 & H3 & H4).
  fold g nq in H1, H2, H3, H4.
  split; [by rewrite rank_searching |].
  split; [by rewrite H1, inTier_Exact_filter |].
  intros c Hc Hn. apply tierOf_Exact in Hn.
  rewrite H1, H2, H3, H4. split; [by apply elem_of_inTier |].
  rewrite !elem_of_app, !elem_of_inTier.
  intros [[Ht _] | [[Ht _] | [Ht _]]]; congruence.
Qed.

(** C5, as amended.  For a query that is not blank, [rank] lays out the four
    groups in order, and an item is classified by comparing its name,
    lower-cased but not trimmed, with the query, lower-cased and trimmed:
    it is in the exact group when the two are equal, else in the starts-with
    group when the first starts with the second, else in the contains group
    when it contains it, else in the last group. *)
Theorem rank_classification_normalization items query c :
  JSString.trim query ≠ [] →
  let g := matchGroups items query in
  let n := toLowerCase (name (heap c)) in
  let q := JSString.trim (toLowerCase query) in
  rank items query =
    exactMatches g ++ startsWithMatches g ++ containsMatches g ++ otherMatches g
  ∧ (c ∈ exactMatches g ↔ c ∈ items ∧ n = q)
  ∧ (c ∈ startsWithMatches g ↔
       c ∈ items ∧ n ≠ q ∧ JSString.startsWith n q = true)
  ∧ (c ∈ containsMatches g ↔
       c ∈ items ∧ n ≠ q ∧ JSString.startsWith n q = false
       ∧ JSString.includes n q = true)
  ∧ (c ∈ otherMatches g ↔
       c ∈ items ∧ n ≠ q ∧ JSString.startsWith n q = false
       ∧ JSString.includes n q = false).
Proof.
  intros Hq g n q.
  split; [by rewrite rank_searching |].
  destruct (matchGroups_tiers items query) as (H1 & H2 & H3 & H4).
  fold g in H1, H2, H3, H4. rewrite H1, H2, H3, H4.
  rewrite !elem_of_inTier.
  rewrite tierOf_Exact, tierOf_StartsWith, tierOf_Contains, tierOf_Other.
  unfold normalizedName, normalizedQuery. fold n q. tauto.
Qed.

(** ** The result sections *)

Lemma sections_permutation items query :
  let s := categorize toLowerCase heap items query in
  exact s ++ similar s ++ other s ≡ₚ items.
Proof.
  simpl. induction items as [|c l IH]; [done |].
  rewrite !filter_cons.
  destruct (decide (nameOf c = toLowerCase query)) as [He | He];
    [| destruct (JSString.startsWith (nameOf c) (toLowerCase query))];
    repeat case_decide; simpl in *; try tauto.
  - by constructor.
  - rewrite <- Permutation_middle. by constructor.
  - rewrite app_assoc, <- Permutation_middle, <- app_assoc. by constructor.
Qed.

(** C6, as amended.  For a non-empty query whose lower-cased form has no
    white space at either end, the three sections are: [exact], all items
    whose lower-cased (untrimmed) name is the normalized query, with no
    limit per source; [similar], the items whose name starts with it without
    being equal to it; [other], the items that do neither.  Every item is
    in exactly one section.  These are the sections the results area draws
    (those that have an item) once the page is loaded without error and the
    list is not empty. *)
Theorem categorize_sections items query :
  query ≠ [] →
  JSString.trim (toLowerCase query) = toLowerCase query →
  let nq := normalizedQuery query in
  let s := categorize toLowerCase heap items query in
  (items ≠ [] →
     renderResults toLowerCase heap false [] items query
     = Grouped (drawnSections s))
  ∧ exact s = filter (λ c, nameOf c = nq) items
  ∧ similar s =
      filter (λ c, JSString.startsWith (nameOf c) nq ∧ nameOf c ≠ nq) items
  ∧ other s =
      filter (λ c, ¬ JSString.startsWith (nameOf c) nq ∧ nameOf c ≠ nq) items
  ∧ (∀ a b, a ∈ items → b ∈ items →
       nameOf a = nq → nameOf b = nq →
       source (heap a) = source (heap b) →
       a ∈ exact s ∧ b ∈ exact s)
  ∧ exact s ++ similar s ++ other s ≡ₚ items.
Proof.
  intros Hq Ht nq s. unfold nq, normalizedQuery. rewrite Ht.
  split.
  { intros Hne. unfold renderResults. simpl.
    destruct items; [done |]. simpl. by apply truthy_true in Hq as ->. }
  do 3 (split; [done |]).
  split; [| apply sections_permutation].
  intros a b Ha Hb Hna Hnb _. simpl.
  rewrite !list_elem_of_filter. done.
Qed.

End RankerFacts.

(** ** Price display *)

Lemma split_length sep s :
  length (JSString.split sep s) = S (occurrences sep s).
Proof.
  unfold occurrences. induction s as [|c s IH]; [done |].
  rewrite filter_cons. cbn [JSString.split]. case_bool_decide as Hc.
  - rewrite decide_True by done. cbn [length]. by rewrite IH.
  - rewrite decide_False by done.
    destruct (JSString.split sep s); cbn [length] in *; [done | by rewrite <- IH].
Qed.

Lemma includes_unit c s :
  (1 ≤ occurrences c s)%nat → JSString.includes s [c] = true.
Proof.
  unfold occurrences. induction s as [|a s IH]; [cbn; lia |].
  rewrite filter_cons. cbn [JSString.includes JSString.startsWith].
  destruct (decide (a = c)) as [-> | Hac]; intros Hn.
  - by rewrite bool_decide_eq_true_2.
  - rewrite IH by done. by rewrite orb_true_r.
Qed.

(** The test that opens the two-price branch holds exactly when the marker
    occurs at least twice. *)
Lemma renderPrice_guard price :
  JSString.includes price [taka]
  && (2 <? length (JSString.split taka price))%nat = true
  ↔ (2 ≤ occurrences taka price)%nat.
Proof.
  rewrite split_length, andb_true_iff, Nat.ltb_lt. split.
  - intros [_ H]. lia.
  - intros H. split; [apply includes_unit |]; lia.
Qed.

(** C8, as amended.  Splitting on the marker gives one segment more than the
    marker has occurrences.  The two-price display is drawn exactly when the
    marker occurs at least twice and at least two segments are not blank;
    the first and second non-blank segments, trimmed and preceded by the
    marker, are then the current and the struck-through price.  In every
    other case, in particular when the marker occurs at most once, the price
    text is shown as it is. *)
Theorem renderPrice_cases price :
  let segments := JSString.split taka price in
  let prices := filter (λ p, JSString.truthy (JSString.trim p)) segments in
  length segments = S (occurrences taka price)
  ∧ ((2 ≤ occurrences taka price)%nat ∧ (2 ≤ length prices)%nat →
       ∃ p0 p1 rest, prices = p0 :: p1 :: rest
         ∧ renderPrice price =
           DualPrice (taka :: JSString.trim p0) (taka :: JSString.trim p1))
  ∧ (¬ ((2 ≤ occurrences taka price)%nat ∧ (2 ≤ length prices)%nat) →
       renderPrice price = RegularPrice price)
  ∧ ((occurrences taka price ≤ 1)%nat → renderPrice price = RegularPrice price).
Proof.
  intros segments prices.
  assert (¬ ((2 ≤ occurrences taka price)%nat ∧ (2 ≤ length prices)%nat) →
          renderPrice price = RegularPrice price) as Hreg.
  { intros Hn. unfold renderPrice. fold segments. fold prices.
    destruct (JSString.includes price [taka] && (2 <? length segments)%nat)
      eqn:Hg; [| done].
    apply renderPrice_guard in Hg.
    destruct (2 <=? length prices)%nat eqn:Hl; [| done].
    apply Nat.leb_le in Hl. tauto. }
  split; [apply split_length |].
  split; [| split; [done | intros; apply Hreg; lia]].
  intros [Ho Hl]. unfold renderPrice. fold segments. fold prices.
  apply renderPrice_guard in Ho. fold segments in Ho. rewrite Ho.
  destruct prices as [|p0 [|p1 rest]]; simpl in Hl; try lia.
  by exists p0, p1, rest.
Qed.

(** ** The compare list *)

Lemma listed_iff (compareList : list Home.Product) (product : Home.Product) :
  existsb (λ item, bool_decide (Home.name item = Home.name product)
                   && bool_decide (Home.source item = Home.source product))
          compareList = true
  ↔ Home.key product ∈ Home.key <$> compareList.
Proof.
  rewrite existsb_exists, list_elem_of_fmap. unfold Home.key.
  split.
  - intros (item & Hin & Hk). exists item.
    apply andb_true_iff in Hk as [Hn Hs].
    apply bool_decide_eq_true in Hn, Hs.
    rewrite list_elem_of_In. split; [congruence | done].
  - intros (item & Hk & Hin). exists item.
    rewrite <- list_elem_of_In. split; [done |].
    injection Hk as -> ->. by rewrite !bool_decide_eq_true_2.
Qed.

(** C9.  When the entries of the compare list have pairwise distinct
    (name, source) pairs, they still have after [addToCompare]; a product
    whose pair is already listed leaves the list as it is, and any other
    product is appended at the end. *)
Theorem addToCompare_set_invariant (compareList : list Home.Product)
    (product : Home.Product) :
  NoDup (Home.key <$> compareList) →
  NoDup (Home.key <$> Home.addToCompare compareList product)
  ∧ (Home.key product ∈ Home.key <$> compareList →
       Home.addToCompare compareList product = compareList)
  ∧ (Home.key product ∉ Home.key <$> compareList →
       Home.addToCompare compareList product = compareList ++ [product]).
Proof.
  intros Hnd. unfold Home.addToCompare.
  destruct (existsb _ compareList) eqn:He; simpl.
  - apply listed_iff in He. done.
  - assert (Home.key product ∉ Home.key <$> compareList) as Hk.
    { intros Hk. apply listed_iff in Hk. congruence. }
    split; [| done].
    rewrite fmap_app. apply NoDup_app. split; [done |]. split.
    + intros k Hin. simpl. rewrite list_elem_of_singleton. by intros ->.
    + apply NoDup_singleton.
Qed.

(** ** The sample data, worked out *)

Local Abbreviation latin := JSString.toLowerCaseLatin.
Local Abbreviation rtx4060 := (JSString.lit "RTX 4060").

Ltac not_blank :=
  let H := fresh in intros H; vm_compute in H; discriminate H.

(** The scenario of three retailers: the exact name first, then the name
    that starts with the query, then the one that contains it, from
    whichever order they arrive in. *)
Example rank_shelf :
  rank latin shelf [1; 2; 3]%positive rtx4060 = [1; 2; 3]%positive
  ∧ rank latin shelf [3; 2; 1]%positive rtx4060 = [1; 2; 3]%positive.
Proof. split; vm_compute; reflexivity. Qed.

Example rank_shelf_groups :
  let g := matchGroups latin shelf [3; 2; 1]%positive rtx4060 in
  exactMatches g = [1%positive] ∧ startsWithMatches g = [2%positive]
  ∧ containsMatches g = [3%positive] ∧ otherMatches g = [].
Proof. repeat split; vm_compute; reflexivity. Qed.

Lemma twins_groups :
  exactMatches (matchGroups latin twins [1; 2]%positive rtx4060)
  = [1; 2]%positive.
Proof. vm_compute; reflexivity. Qed.

(** Against C1 as stated: two objects with the query's name from one source;
    the second is in the exact group all the same. *)
Lemma twins_second_is_exact :
  ¬ (∀ (i j : nat) (a b : ref),
       (i < j)%nat →
       [1; 2]%positive !! i = Some a → [1; 2]%positive !! j = Some b →
       normalizedName latin twins a = normalizedQuery latin rtx4060 →
       normalizedName latin twins b = normalizedQuery latin rtx4060 →
       source (twins a) = source (twins b) →
       b ∉ exactMatches (matchGroups latin twins [1; 2]%positive rtx4060)).
Proof.
  intros H.
  apply (H 0%nat 1%nat 1%positive 2%positive); try done; try lia.
  rewrite twins_groups. set_solver.
Qed.

Lemma exact_tier_twins :
  JSString.trim rtx4060 ≠ []
  ∧ exactMatches (matchGroups latin twins [1; 2]%positive rtx4060)
    = filter (λ c, normalizedName latin twins c = normalizedQuery latin rtx4060)
             [1; 2]%positive.
Proof.
  assert (JSString.trim rtx4060 ≠ []) as Hq by not_blank.
  split; [exact Hq |].
  destruct (exact_tier_takes_every_exact_match latin twins
              [1; 2]%positive rtx4060 Hq) as (_ & H & _).
  exact H.
Defined.

Lemma rank_tier_order_shelf :
  JSString.trim rtx4060 ≠ []
  ∧ ∀ i j,
      rank latin shelf [3; 2; 1]%positive rtx4060 !! i = Some 1%positive →
      rank latin shelf [3; 2; 1]%positive rtx4060 !! j = Some 3%positive →
      (i < j)%nat.
Proof.
  assert (JSString.trim rtx4060 ≠ []) as Hq by not_blank.
  split; [exact Hq |].
  destruct (rank_tier_order latin shelf [3; 2; 1]%positive rtx4060 Hq)
    as (_ & _ & _ & H).
  intros i j. apply H; vm_compute; reflexivity.
Defined.

Lemma rank_blank_query_shelf :
  Forall (λ c, JSString.isWhiteSpace c = true) (JSString.lit "  ")
  ∧ rank latin shelf [3; 1; 2]%positive (JSString.lit "  ") = [3; 1; 2]%positive.
Proof.
  assert (Forall (λ c, JSString.isWhiteSpace c = true) (JSString.lit "  ")) as Hq.
  { repeat constructor. }
  split; [exact Hq |].
  exact (rank_blank_query_identity latin shelf [3; 1; 2]%positive _ Hq).
Defined.

(** Against C5 as stated: a name that is the query behind one blank is the
    query once trimmed and lower-cased, and is not an exact match. *)
Lemma padded_name_is_not_exact :
  ¬ (∀ c, c ∈ [1%positive] →
       JSString.trim (latin (name (padded c))) = JSString.trim (latin rtx4060) →
       c ∈ exactMatches (matchGroups latin padded [1%positive] rtx4060)).
Proof.
  intros H. specialize (H 1%positive).
  assert (exactMatches (matchGroups latin padded [1%positive] rtx4060) = [])
    as He by (vm_compute; reflexivity).
  rewrite He in H. eapply not_elem_of_nil, H; [set_solver |].
  vm_compute; reflexivity.
Qed.

(** The query [" ryzen 5 5600x "] against the name ["Ryzen 5 5600X"]. *)
Lemma ryzen_is_exact :
  JSString.trim (JSString.lit " ryzen 5 5600x ") ≠ []
  ∧ 1%positive ∈ exactMatches
      (matchGroups latin ryzen [1%positive] (JSString.lit " ryzen 5 5600x ")).
Proof.
  assert (JSString.trim (JSString.lit " ryzen 5 5600x ") ≠ []) as Hq by not_blank.
  split; [exact Hq |].
  destruct (rank_classification_normalization latin ryzen [1%positive]
              (JSString.lit " ryzen 5 5600x ") 1%positive Hq) as (_ & H & _).
  apply H. split; [apply list_elem_of_singleton; reflexivity |].
  vm_compute; reflexivity.
Defined.

(** Against C6 as stated: the padded name is the query once both are
    normalized, and is not in the exact section. *)
Lemma padded_name_is_not_in_exact_section :
  ¬ (∀ c, c ∈ [1%positive] →
       JSString.trim (latin (name (padded c))) = JSString.trim (latin rtx4060) →
       c ∈ exact (categorize latin padded [1%positive] rtx4060)).
Proof.
  intros H. specialize (H 1%positive).
  assert (exact (categorize latin padded [1%positive] rtx4060) = [])
    as He by (vm_compute; reflexivity).
  rewrite He in H. eapply not_elem_of_nil, H; [set_solver |].
  vm_compute; reflexivity.
Qed.

Lemma categorize_twins :
  rtx4060 ≠ []
  ∧ JSString.trim (latin rtx4060) = latin rtx4060
  ∧ 1%positive ∈ exact (categorize latin twins [1; 2]%positive rtx4060)
  ∧ 2%positive ∈ exact (categorize latin twins [1; 2]%positive rtx4060).
Proof.
  assert (rtx4060 ≠ []) as Hq by not_blank.
  assert (JSString.trim (latin rtx4060) = latin rtx4060) as Ht
    by (vm_compute; reflexivity).
  split; [exact Hq |]. split; [exact Ht |].
  destruct (categorize_sections latin twins [1; 2]%positive rtx4060 Hq Ht)
    as (_ & _ & _ & _ & H & _).
  apply H.
  - apply list_elem_of_here.
  - apply list_elem_of_further, list_elem_of_here.
  - vm_compute; reflexivity.
  - vm_compute; reflexivity.
  - reflexivity.
Defined.

(** An item with an empty name and an empty source is ranked like any
    other. *)
Example rank_nameless :
  rank latin (λ _, item "" "") [1; 2]%positive rtx4060 = [1; 2]%positive
  ∧ rank latin (λ _, item "" "") [1; 2]%positive [] = [1; 2]%positive.
Proof. split; vm_compute; reflexivity. Qed.

(** Against C8 as stated: the marker occurs twice, not more, in the text of
    the code's own remark, and the two prices are drawn. *)
Lemma two_markers_give_two_prices :
  ¬ ((∃ current original, renderPrice twoAmounts = DualPrice current original)
     ↔ (2 < occurrences taka twoAmounts)%nat).
Proof.
  intros [H _].
  assert (2 < occurrences taka twoAmounts)%nat as Hn.
  { apply H. eexists _, _. vm_compute. reflexivity. }
  vm_compute in Hn. lia.
Qed.

Lemma renderPrice_twoAmounts :
  renderPrice twoAmounts =
  DualPrice (taka :: JSString.lit "12,500") (taka :: JSString.lit "13,000").
Proof.
  destruct (renderPrice_cases twoAmounts) as (_ & H & _).
  destruct H as (p0 & p1 & rest & Hp & Hr).
  { split; vm_compute; lia. }
  vm_compute in Hp. injection Hp as <- <- _. exact Hr.
Defined.

Example renderPrice_verbatim :
  renderPrice (taka :: JSString.lit " 12,500")
  = RegularPrice (taka :: JSString.lit " 12,500")
  ∧ renderPrice [taka; taka; taka] = RegularPrice [taka; taka; taka].
Proof. split; vm_compute; reflexivity. Qed.

Lemma addToCompare_sample :
  NoDup (Home.key <$> [product "RTX 4060" "Startech"])
  ∧ Home.addToCompare [product "RTX 4060" "Startech"]
                      (product "RTX 4060" "Techland")
    = [product "RTX 4060" "Startech"; product "RTX 4060" "Techland"]
  ∧ Home.addToCompare [product "RTX 4060" "Startech"]
                      (product "RTX 4060" "Startech")
    = [product "RTX 4060" "Startech"].
Proof.
  assert (NoDup (Home.key <$> [product "RTX 4060" "Startech"])) as Hnd
    by apply NoDup_singleton.
  split; [exact Hnd |].
  split.
  - destruct (addToCompare_set_invariant [product "RTX 4060" "Startech"]
                (product "RTX 4060" "Techland") Hnd) as (_ & _ & H).
    apply H. intros Hin. apply list_elem_of_singleton in Hin.
    vm_compute in Hin. discriminate Hin.
  - destruct (addToCompare_set_invariant [product "RTX 4060" "Startech"]
                (product "RTX 4060" "Startech") Hnd) as (_ & H & _).
    apply H. apply list_elem_of_here.
Defined.

(** * Further properties of the two pages *)

(** ** Filtering and ranking together *)

Section FilterFacts.

Variable toLowerCase : jsstring → jsstring.
Variable heap : ref → Component.

Local Abbreviation nameOf := (normalizedName toLowerCase heap).
Local Abbreviation tierOf := (tierOf toLowerCase heap).
Local Abbreviation inTier := (inTier toLowerCase heap).
Local Abbreviation matchGroups := (matchGroups toLowerCase heap).
Local Abbreviation prioritizeExactMatches := (prioritizeExactMatches toLowerCase heap).
Local Abbreviation applyFilters := (applyFilters toLowerCase heap).
Local Abbreviation rank := (rank toLowerCase heap).
Local Abbreviation categorize := (categorize toLowerCase heap).
Local Abbreviation normalizedQuery := (normalizedQuery toLowerCase).
Local Abbreviation passes := (passes heap).
Local Abbreviation availableSourcesOf := (availableSourcesOf heap).

Lemma filter_all {A} (P : A → Prop) `{!∀ x, Decision (P x)} (l : list A) :
  (∀ x, x ∈ l → P x) → filter P l = l.
Proof.
  induction l as [|x l IH]; intros Hall; [done |].
  rewrite filter_cons_True by (apply Hall; left).
  f_equal. apply IH. intros y Hy. apply Hall. by right.
Qed.

Lemma filter_none {A} (P : A → Prop) `{!∀ x, Decision (P x)} (l : list A) :
  (∀ x, x ∈ l → ¬ P x) → filter P l = [].
Proof.
  induction l as [|x l IH]; intros Hnone; [done |].
  rewrite filter_cons_False by (apply Hnone; left).
  apply IH. intros y Hy. apply Hnone. by right.
Qed.

Lemma inTier_filter (P : ref → Prop) `{!∀ c, Decision (P c)} nq t l :
  inTier nq t (filter P l) = filter P (inTier nq t l).
Proof.
  unfold inTier. rewrite !list_filter_filter.
  apply list_filter_iff. tauto.
Qed.

(** X1.  Ranking commutes with any filter on the items: prioritizing the
    filtered list gives the filtered prioritized list. *)
Theorem prioritizeExactMatches_filter (P : ref → Prop) `{!∀ c, Decision (P c)}
    components query :
  prioritizeExactMatches (filter P components) query
  = filter P (prioritizeExactMatches components query).
Proof.
  rewrite !prioritizeExactMatches_tiers.
  by rewrite !filter_app, !inTier_filter.
Qed.

Lemma rank_filter (P : ref → Prop) `{!∀ c, Decision (P c)} items query :
  rank (filter P items) query = filter P (rank items query).
Proof.
  destruct (decide (JSString.trim query = [])) as [Hq | Hq].
  - by rewrite !rank_blank.
  - rewrite !rank_searching by done.
    rewrite !prioritizeExactMatches_tiers.
    by rewrite !filter_app, !inTier_filter.
Qed.

Lemma guarded_filter_pair {A} (b1 b2 : bool) (P1 P2 : A → Prop)
    `{!∀ x, Decision (P1 x), !∀ x, Decision (P2 x)} (l : list A) :
  (let result := if b1 then filter P1 l else l in
   if b2 then filter P2 result else result)
  = filter (λ x, (b1 → P1 x) ∧ (b2 → P2 x)) l.
Proof.
  destruct b1, b2; simpl.
  - rewrite list_filter_filter. apply list_filter_iff. intros x. tauto.
  - apply list_filter_iff. intros x. tauto.
  - apply list_filter_iff. intros x. tauto.
  - symmetry. apply filter_all. intros x _. tauto.
Qed.

(** The two guarded filters of [applyFilters] amount to one. *)
Lemma guarded_filters selectedSource selectedAvailability (l : list ref) :
  (let result :=
     if selected selectedSource
     then filter (λ c, Some (source (heap c)) = selectedSource) l
     else l in
   if selected selectedAvailability
   then filter (λ c, Some (availability (heap c)) = selectedAvailability) result
   else result)
  = filter (passes selectedSource selectedAvailability) l.
Proof.
  rewrite guarded_filter_pair. by apply list_filter_iff.
Qed.

Lemma applyFilters_rank selectedSource selectedAvailability searchQuery l :
  applyFilters selectedSource selectedAvailability searchQuery l
  = rank (filter (passes selectedSource selectedAvailability) l) searchQuery.
Proof.
  unfold rank, applyFilters at 2. simpl.
  rewrite <- guarded_filters. reflexivity.
Qed.

(** X2.  [applyFilters] gives the same list as ranking everything first and
    filtering by source and availability afterwards. *)
Theorem applyFilters_rank_then_filter
    selectedSource selectedAvailability searchQuery components :
  applyFilters selectedSource selectedAvailability searchQuery components
  = filter (passes selectedSource selectedAvailability)
           (rank components searchQuery).
Proof. by rewrite applyFilters_rank, rank_filter. Qed.

Lemma applyFilters_permutation
    selectedSource selectedAvailability searchQuery components :
  applyFilters selectedSource selectedAvailability searchQuery components
    ≡ₚ filter (passes selectedSource selectedAvailability) components.
Proof. rewrite applyFilters_rank. apply rank_permutation. Qed.

(** X3.  [applyFilters] keeps exactly the components that pass the selected
    filters: its result is a permutation of them, so none is lost, none is
    repeated and nothing else gets in. *)
Theorem applyFilters_selects
    selectedSource selectedAvailability searchQuery components :
  applyFilters selectedSource selectedAvailability searchQuery components
    ≡ₚ filter (passes selectedSource selectedAvailability) components
  ∧ (∀ c, c ∈ applyFilters selectedSource selectedAvailability searchQuery
                 components
          ↔ c ∈ components
            ∧ (selected selectedSource →
                 Some (source (heap c)) = selectedSource)
            ∧ (selected selectedAvailability →
                 Some (availability (heap c)) = selectedAvailability)).
Proof.
  split; [apply applyFilters_permutation |].
  intros c. rewrite applyFilters_permutation, list_elem_of_filter.
  unfold passes. tauto.
Qed.

Lemma prioritizeExactMatches_twice l query :
  prioritizeExactMatches (prioritizeExactMatches l query) query
  = prioritizeExactMatches l query.
Proof.
  rewrite !prioritizeExactMatches_tiers.
  rewrite !inTier_app, !inTier_inTier.
  repeat case_decide; try done.
  by rewrite !app_nil_r.
Qed.

Lemma rank_twice l query : rank (rank l query) query = rank l query.
Proof.
  destruct (decide (JSString.trim query = [])) as [Hq | Hq].
  - by rewrite !rank_blank.
  - rewrite !rank_searching by done. apply prioritizeExactMatches_twice.
Qed.

(** X4.  Applying the filters to what they produced changes nothing: the
    effect that re-runs [applyFilters] reaches a fixed point at once. *)
Theorem applyFilters_idempotent
    selectedSource selectedAvailability searchQuery components :
  applyFilters selectedSource selectedAvailability searchQuery
    (applyFilters selectedSource selectedAvailability searchQuery components)
  = applyFilters selectedSource selectedAvailability searchQuery components.
Proof.
  rewrite !applyFilters_rank.
  rewrite (rank_filter _ components).
  rewrite list_filter_filter_l by done.
  by rewrite rank_filter, rank_twice.
Qed.

(** ** The order of the ranked list *)

Lemma inTier_sorted nq t l :
  StronglySorted (λ a b, tierRank (tierOf nq a) ≤ tierRank (tierOf nq b))%nat
                 (inTier nq t l).
Proof.
  induction l as [|c l IH]; [constructor |].
  rewrite inTier_cons. case_decide as Hc; [| done].
  constructor; [done |].
  apply Forall_forall. intros b Hb.
  apply elem_of_inTier in Hb as [Hb _]. by rewrite Hc, Hb.
Qed.

Lemma tiers_in_order nq t u l k a b :
  (tierRank t ≤ tierRank u)%nat →
  a ∈ inTier nq t l → b ∈ inTier nq u k →
  (tierRank (tierOf nq a) ≤ tierRank (tierOf nq b))%nat.
Proof.
  intros Htu Ha Hb.
  apply elem_of_inTier in Ha as [-> _]. by apply elem_of_inTier in Hb as [-> _].
Qed.

(** X5.  The ranked list is sorted by match quality: no item comes before an
    item of a better tier (exact, starts-with, contains, other). *)
Theorem prioritizeExactMatches_sorted components query :
  StronglySorted
    (λ a b, tierRank (tierOf (normalizedQuery query) a)
            ≤ tierRank (tierOf (normalizedQuery query) b))%nat
    (prioritizeExactMatches components query).
Proof.
  rewrite prioritizeExactMatches_tiers.
  set (nq := normalizedQuery query).
  apply StronglySorted_app_2; [| apply inTier_sorted |].
  { intros a b Ha Hb. rewrite !elem_of_app in Hb.
    destruct Hb as [Hb | [Hb | Hb]];
      (eapply tiers_in_order; [| exact Ha | exact Hb]); simpl; lia. }
  apply StronglySorted_app_2; [| apply inTier_sorted |].
  { intros a b Ha Hb. rewrite !elem_of_app in Hb.
    destruct Hb as [Hb | Hb];
      (eapply tiers_in_order; [| exact Ha | exact Hb]); simpl; lia. }
  apply StronglySorted_app_2; [| apply inTier_sorted ..].
  intros a b Ha Hb.
  (eapply tiers_in_order; [| exact Ha | exact Hb]); simpl; lia.
Qed.

(** X6.  When no name contains the normalized query, prioritizing leaves the
    list in the order it came in. *)
Theorem prioritizeExactMatches_no_match components query :
  (∀ c, c ∈ components →
        JSString.includes (nameOf c) (normalizedQuery query) = false) →
  prioritizeExactMatches components query = components.
Proof.
  intros Hnone. rewrite prioritizeExactMatches_tiers.
  set (nq := normalizedQuery query).
  assert (∀ c, c ∈ components → tierOf nq c = Other) as Hother.
  { intros c Hc. specialize (Hnone c Hc). fold nq in Hnone.
    apply tierOf_Other.
    assert (JSString.startsWith (nameOf c) nq = false) as Hs.
    { destruct (nameOf c); simpl in Hnone; by apply orb_false_iff in Hnone as [? _]. }
    repeat split; try done.
    intros Heq. rewrite Heq, startsWith_refl in Hs. done. }
  unfold inTier.
  rewrite (filter_all (λ c, tierOf nq c = Other)) by done.
  rewrite !filter_none; [done | ..];
    intros c Hc; rewrite (Hother c Hc); done.
Qed.

(** ** The sections the page draws from the ranked list *)

Lemma filter_inTier_all (Q : ref → Prop) `{!∀ c, Decision (Q c)} nq t l :
  (∀ c, tierOf nq c = t → Q c) → filter Q (inTier nq t l) = inTier nq t l.
Proof.
  intros HQ. apply filter_all. intros c Hc.
  apply elem_of_inTier in Hc as [Hc _]. by apply HQ.
Qed.

Lemma filter_inTier_none (Q : ref → Prop) `{!∀ c, Decision (Q c)} nq t l :
  (∀ c, tierOf nq c = t → ¬ Q c) → filter Q (inTier nq t l) = [].
Proof.
  intros HQ. apply filter_none. intros c Hc.
  apply elem_of_inTier in Hc as [Hc _]. by apply HQ.
Qed.

(** X7.  For a query that is not blank and whose lower-cased form has no
    white space at either end, the sections drawn from the filtered and
    ranked list follow the ranking: the exact section is the exact group,
    the similar section the starts-with group, the last section the
    contains group followed by the rest; read top to bottom the page shows
    the ranked list, item for item. *)
Theorem sections_follow_ranking
    selectedSource selectedAvailability searchQuery components :
  JSString.trim searchQuery ≠ [] →
  JSString.trim (toLowerCase searchQuery) = toLowerCase searchQuery →
  let filteredComponents :=
    applyFilters selectedSource selectedAvailability searchQuery components in
  let s := categorize filteredComponents searchQuery in
  let g := matchGroups
             (filter (passes selectedSource selectedAvailability) components)
             searchQuery in
  exact s = exactMatches g
  ∧ similar s = startsWithMatches g
  ∧ other s = containsMatches g ++ otherMatches g
  ∧ exact s ++ similar s ++ other s = filteredComponents.
Proof.
  intros Hq Ht filteredComponents s g.
  set (F := filter (passes selectedSource selectedAvailability) components) in *.
  set (nq := normalizedQuery searchQuery).
  assert (toLowerCase searchQuery = nq) as Hnq by done.
  destruct (matchGroups_tiers toLowerCase heap F searchQuery)
    as (H1 & H2 & H3 & H4).
  fold nq in H1, H2, H3, H4.
  assert (filteredComponents =
          inTier nq Exact F ++ inTier nq StartsWith F
          ++ inTier nq Contains F ++ inTier nq Other F) as HR.
  { unfold filteredComponents. rewrite applyFilters_rank.
    rewrite rank_searching by done. apply prioritizeExactMatches_tiers. }
  assert (exact s = inTier nq Exact F) as He.
  { unfold s, categorize. simpl. rewrite Hnq, HR, !filter_app.
    rewrite filter_inTier_all by (intros c; apply tierOf_Exact).
    rewrite !filter_inTier_none; [by rewrite !app_nil_r | ..];
      intros c Hc Hn; apply tierOf_Exact in Hn; congruence. }
  assert (similar s = inTier nq StartsWith F) as Hs.
  { unfold s, categorize. simpl. rewrite Hnq, HR, !filter_app.
    rewrite (filter_inTier_all _ nq StartsWith).
    2:{ intros c Hc. apply tierOf_StartsWith in Hc as [Hn Hc].
        split; [by rewrite Hc | done]. }
    rewrite !filter_inTier_none; [by rewrite !app_nil_r | ..].
    - intros c Hc [Hw _]. apply tierOf_Other in Hc as (_ & Hc & _).
      by rewrite Hc in Hw.
    - intros c Hc [Hw _]. apply tierOf_Contains in Hc as (_ & Hc & _).
      by rewrite Hc in Hw.
    - intros c Hc [_ Hn]. by apply tierOf_Exact in Hc. }
  assert (other s = inTier nq Contains F ++ inTier nq Other F) as Ho.
  { unfold s, categorize. simpl. rewrite Hnq, HR, !filter_app.
    rewrite (filter_inTier_all _ nq Contains).
    2:{ intros c Hc. apply tierOf_Contains in Hc as (Hn & Hc & _).
        split; [rewrite Hc; simpl; tauto | done]. }
    rewrite (filter_inTier_all _ nq Other).
    2:{ intros c Hc. apply tierOf_Other in Hc as (Hn & Hc & _).
        split; [rewrite Hc; simpl; tauto | done]. }
    rewrite !filter_inTier_none; [done | ..].
    - intros c Hc [Hw _]. apply tierOf_StartsWith in Hc as [_ Hc].
      rewrite Hc in Hw. by apply Hw.
    - intros c Hc [_ Hn]. by apply tierOf_Exact in Hc. }
  unfold g. rewrite He, Hs, Ho, H1, H2, H3, H4, HR. done.
Qed.

(** ** What the passes keep track of *)

Lemma firstPass_sources nq l g :
  sourcesWithExactMatches (fold_left (firstPassStep toLowerCase heap nq) l g)
  = list_to_set ((λ c, source (heap c)) <$> inTier nq Exact l)
    ∪ sourcesWithExactMatches g.
Proof.
  revert g. induction l as [|c l IH]; intros g.
  - cbn [fold_left]. unfold inTier. rewrite filter_nil, fmap_nil.
    by rewrite list_to_set_nil, (left_id_L ∅ (∪)).
  - cbn [fold_left]. rewrite IH, inTier_cons.
    unfold firstPassStep.
    case_bool_decide as Hc; case_decide as Ht;
      rewrite tierOf_Exact in Ht; try done.
    cbn [sourcesWithExactMatches]. rewrite fmap_cons, list_to_set_cons.
    rewrite (comm_L (∪) {[source (heap c)]} (list_to_set _)).
    by rewrite (assoc_L (∪)).
Qed.

(** X8.  The second pass adds nothing to the exact matches nor to the
    tracked sources: both are as the first pass left them, and the tracked
    sources are exactly the sources of the exact matches. *)
Theorem second_pass_adds_no_exact_match components query :
  let nq := normalizedQuery query in
  let g1 := fold_left (firstPassStep toLowerCase heap nq) components noGroups in
  let g := matchGroups components query in
  exactMatches g = exactMatches g1
  ∧ sourcesWithExactMatches g = sourcesWithExactMatches g1
  ∧ (∀ s, s ∈ sourcesWithExactMatches g
          ↔ ∃ c, c ∈ exactMatches g ∧ source (heap c) = s).
Proof.
  intros nq g1 g.
  destruct (firstPass_groups toLowerCase heap nq components noGroups)
    as (H1 & _).
  fold g1 in H1. simpl in H1.
  assert (g = mkGroups (exactMatches g1)
                (startsWithMatches g1 ++ inTier nq StartsWith components)
                (containsMatches g1 ++ inTier nq Contains components)
                (otherMatches g1 ++ inTier nq Other components)
                (sourcesWithExactMatches g1)) as Hg.
  { unfold g, matchGroups. fold nq g1. apply secondPass_groups.
    - intros c Hc Ht. rewrite H1. by apply elem_of_inTier.
    - intros c. rewrite H1. intros Hc. by apply elem_of_inTier in Hc as [? _]. }
  rewrite Hg. simpl. split; [done |]. split; [done |].
  intros s. rewrite H1. unfold g1. rewrite firstPass_sources.
  rewrite elem_of_union, elem_of_list_to_set, list_elem_of_fmap. simpl.
  split.
  - intros [(c & -> & Hc) | Hs]; [by exists c | by apply elem_of_empty in Hs].
  - intros (c & Hc & <-). left. by exists c.
Qed.

(** ** The source buttons *)

Lemma setFrom_fold xs seen :
  NoDup seen →
  let out := fold_left
    (λ seen x, if bool_decide (x ∈ seen) then seen else seen ++ [x]) xs seen in
  NoDup out ∧ (∀ x : jsstring, x ∈ out ↔ x ∈ seen ∨ x ∈ xs).
Proof.
  revert seen. induction xs as [|y xs IH]; intros seen Hnd; simpl.
  - split; [done |]. intros x. rewrite elem_of_nil. tauto.
  - case_bool_decide as Hy.
    + destruct (IH seen Hnd) as [IH1 IH2]. split; [done |].
      intros x. rewrite IH2, elem_of_cons. split; [tauto |].
      intros [? | [-> | ?]]; tauto.
    + destruct (IH (seen ++ [y])) as [IH1 IH2].
      { apply NoDup_app. split; [done |]. split; [| apply NoDup_singleton].
        intros x Hx. rewrite list_elem_of_singleton. by intros ->. }
      split; [done |].
      intros x. rewrite IH2, elem_of_app, list_elem_of_singleton, elem_of_cons.
      tauto.
Qed.

(** X9.  The available sources list every source that occurs among the
    fetched components, and each of them once. *)
Theorem availableSources_distinct componentsData :
  NoDup (availableSourcesOf componentsData)
  ∧ (∀ s, s ∈ availableSourcesOf componentsData
          ↔ ∃ c, c ∈ componentsData ∧ source (heap c) = s).
Proof.
  unfold availableSourcesOf, setFrom.
  destruct (setFrom_fold ((λ comp, source (heap comp)) <$> componentsData) [])
    as [Hnd Hin]; [constructor |].
  split; [done |].
  intros s. rewrite Hin, elem_of_nil, list_elem_of_fmap. split.
  - intros [[] | (c & -> & Hc)]. by exists c.
  - intros (c & Hc & <-). right. by exists c.
Qed.

(** X10.  A source button that is drawn never leads to an empty list: with
    no availability selected, choosing it leaves at least one component,
    and every component left is from that source. *)
Theorem offered_source_has_results components s searchQuery :
  s ∈ sourceButtons (availableSourcesOf components) →
  applyFilters (Some s) None searchQuery components ≠ []
  ∧ (∀ c, c ∈ applyFilters (Some s) None searchQuery components →
          source (heap c) = s).
Proof.
  intros Hs. unfold sourceButtons in Hs.
  apply list_elem_of_filter in Hs as [Hav Hknown].
  assert (JSString.truthy s = true) as Htruthy.
  { assert (Forall (λ k, JSString.truthy k = true) knownSources) as Hall
      by (repeat constructor).
    rewrite Forall_forall in Hall. by apply Hall. }
  assert (∀ c, passes (Some s) None c ↔ source (heap c) = s) as Hpass.
  { intros c. unfold passes. simpl. rewrite Htruthy. simpl.
    split; [intros [Hc _]; by injection (Hc I) | intros ->; tauto]. }
  unfold availableSourcesOf, setFrom in Hav.
  destruct (setFrom_fold ((λ comp, source (heap comp)) <$> components) [])
    as [_ Hin]; [constructor |].
  apply Hin in Hav as [Hav | Hav]; [by apply elem_of_nil in Hav |].
  apply list_elem_of_fmap in Hav as (c & -> & Hc).
  split.
  - intros Hnil.
    assert (c ∈ applyFilters (Some (source (heap c))) None searchQuery components)
      as Hin'.
    { rewrite applyFilters_permutation, list_elem_of_filter.
      split; [by apply Hpass | done]. }
    rewrite Hnil in Hin'. by apply elem_of_nil in Hin'.
  - intros c'. rewrite applyFilters_permutation, list_elem_of_filter.
    intros [Hp _]. by apply Hpass.
Qed.

End FilterFacts.

(** ** The amounts of a two-price display *)

Lemma trimStart_suffix s : JSString.trimStart s `suffix_of` s.
Proof.
  induction s as [|a s IH]; simpl; [done |].
  destruct (JSString.isWhiteSpace a); [by apply suffix_cons_r | done].
Qed.

Lemma trimStart_keep a s :
  JSString.isWhiteSpace a = false → JSString.trimStart (a :: s) = a :: s.
Proof. intros Ha. simpl. by rewrite Ha. Qed.

Lemma trimStart_idem s :
  JSString.trimStart (JSString.trimStart s) = JSString.trimStart s.
Proof.
  destruct (JSString.trimStart s) as [|a t] eqn:Hs; [done |].
  apply trimStart_keep. by apply trimStart_head in Hs.
Qed.

Lemma trimStart_snoc s a :
  JSString.isWhiteSpace a = false →
  JSString.trimStart (s ++ [a]) = JSString.trimStart s ++ [a].
Proof.
  intros Ha. induction s as [|c s IH]; simpl; [by rewrite Ha |].
  by destruct (JSString.isWhiteSpace c).
Qed.

(** The shape of a trimmed string that is not empty. *)
Lemma trim_cons s a t :
  JSString.trimStart s = a :: t →
  JSString.trim s = a :: reverse (JSString.trimStart (reverse t)).
Proof.
  intros Hs. pose proof (trimStart_head _ _ _ Hs) as Ha.
  unfold JSString.trim, JSString.trimEnd. rewrite Hs.
  rewrite reverse_cons, trimStart_snoc by done.
  by rewrite reverse_app.
Qed.

Lemma trim_idem s : JSString.trim (JSString.trim s) = JSString.trim s.
Proof.
  destruct (JSString.trimStart s) as [|a t] eqn:Hs.
  - unfold JSString.trim, JSString.trimEnd. by rewrite Hs.
  - pose proof (trimStart_head _ _ _ Hs) as Ha.
    rewrite (trim_cons s a t Hs).
    rewrite (trim_cons _ a (reverse (JSString.trimStart (reverse t))))
      by by apply trimStart_keep.
    by rewrite reverse_involutive, trimStart_idem.
Qed.

Lemma elem_of_trim c s : c ∈ JSString.trim s → c ∈ s.
Proof.
  unfold JSString.trim, JSString.trimEnd. rewrite elem_of_reverse.
  intros Hc.
  destruct (trimStart_suffix (reverse (JSString.trimStart s))) as [k Hk].
  assert (c ∈ reverse (JSString.trimStart s)) as Hc'.
  { rewrite Hk, elem_of_app. by right. }
  rewrite elem_of_reverse in Hc'.
  destruct (trimStart_suffix s) as [k' Hk'].
  rewrite Hk', elem_of_app. by right.
Qed.

(** No segment of a split holds the separator. *)
Lemma split_segments_free sep s seg :
  seg ∈ JSString.split sep s → sep ∉ seg.
Proof.
  revert seg. induction s as [|c s IH]; intros seg; cbn [JSString.split].
  - rewrite list_elem_of_singleton. intros ->. apply not_elem_of_nil.
  - case_bool_decide as Hc.
    + rewrite elem_of_cons. intros [-> | Hseg]; [apply not_elem_of_nil | by apply IH].
    + destruct (JSString.split sep s) as [|seg0 segs].
      * rewrite list_elem_of_singleton. intros ->.
        rewrite list_elem_of_singleton. congruence.
      * rewrite elem_of_cons. intros [-> | Hseg].
        -- rewrite not_elem_of_cons. split; [congruence |]. apply IH. left.
        -- apply IH. by right.
Qed.

(** X11.  In a two-price display both amounts are the marker followed by a
    text that is not empty, has no white space at either end and holds no
    further marker. *)
Theorem renderPrice_dual_amounts price current original :
  renderPrice price = DualPrice current original →
  ∃ a b, current = taka :: a ∧ original = taka :: b
    ∧ (a ≠ [] ∧ JSString.trim a = a ∧ taka ∉ a)
    ∧ (b ≠ [] ∧ JSString.trim b = b ∧ taka ∉ b).
Proof.
  unfold renderPrice.
  destruct (JSString.includes price [taka] && _); [| done].
  set (prices := filter _ _).
  destruct (2 <=? length prices)%nat eqn:Hl; [| done].
  apply Nat.leb_le in Hl.
  assert (∀ p, p ∈ prices →
            JSString.trim p ≠ [] ∧ JSString.trim (JSString.trim p) = JSString.trim p
            ∧ taka ∉ JSString.trim p) as Hamount.
  { intros p Hp. apply list_elem_of_filter in Hp as [Ht Hp].
    split; [by destruct (JSString.trim p) |]. split; [apply trim_idem |].
    intros Hin. apply elem_of_trim in Hin.
    by apply (split_segments_free taka price p). }
  destruct prices as [|p0 [|p1 rest]]; simpl in Hl; try lia.
  intros [= <- <-]. simpl.
  exists (JSString.trim p0), (JSString.trim p1).
  repeat split; try done; apply Hamount;
    first [apply list_elem_of_here
          | apply list_elem_of_further, list_elem_of_here].
Qed.

(** ** The retailer blocks of the search page *)

Lemma filter_or_permutation {A} (P Q : A → Prop)
    `{!∀ x, Decision (P x), !∀ x, Decision (Q x)} (l : list A) :
  (∀ x, P x → Q x → False) →
  filter (λ x, P x ∨ Q x) l ≡ₚ filter P l ++ filter Q l.
Proof.
  intros Hdisj. induction l as [|x l IH]; [done |].
  rewrite !filter_cons.
  destruct (decide (P x)) as [HP | HP], (decide (Q x)) as [HQ | HQ].
  - destruct (Hdisj x HP HQ).
  - rewrite decide_True by tauto. simpl. by constructor.
  - rewrite decide_True by tauto. rewrite <- Permutation_middle. by constructor.
  - rewrite decide_False by tauto. done.
Qed.

Lemma fromSource_concat (ks : list jsstring) (products : list Home.Product) :
  NoDup ks →
  concat ((λ k, Home.fromSource k products) <$> ks)
  ≡ₚ filter (λ p, Home.source p ∈ ks) products.
Proof.
  induction 1 as [|k ks Hk Hnd IH]; simpl.
  - symmetry. apply Permutation_nil_r. apply filter_none.
    intros p _. apply not_elem_of_nil.
  - rewrite IH. unfold Home.fromSource.
    rewrite <- filter_or_permutation by (intros p -> ?; done).
    erewrite list_filter_iff; [reflexivity |].
    intros p. simpl. by rewrite elem_of_cons.
Qed.

Lemma concat_shown {A B} (blocks : list (A * list B)) :
  concat (snd <$> filter (λ block, (0 <? length block.2)%nat) blocks)
  = concat (snd <$> blocks).
Proof.
  induction blocks as [|[t cards] blocks IH]; [done |].
  rewrite filter_cons. destruct cards as [|c cards].
  - rewrite decide_False by (simpl; tauto).
    rewrite IH, fmap_cons. done.
  - rewrite decide_True by done.
    rewrite !fmap_cons. cbn [concat]. by rewrite IH.
Qed.

Lemma retailers_distinct : NoDup Home.retailers.
Proof.
  apply (bool_decide_unpack (NoDup Home.retailers)). vm_compute. exact I.
Qed.

Lemma shownCards_permutation products :
  Home.shownCards products
  ≡ₚ filter (λ p, Home.source p ∈ Home.retailers) products.
Proof.
  unfold Home.shownCards, Home.shownBlocks. rewrite concat_shown.
  apply (fromSource_concat Home.retailers products retailers_distinct).
Qed.

(** X12.  The cards on the search page are the products of the six retailers
    that have a block, each once; a product from any other source is on no
    card. *)
Theorem shownCards_known_retailers products :
  Home.shownCards products
    ≡ₚ filter (λ p, Home.source p ∈ Home.retailers) products
  ∧ (∀ p, p ∈ products → Home.source p ∉ Home.retailers →
          p ∉ Home.shownCards products).
Proof.
  split; [apply shownCards_permutation |].
  intros p _ Hp. rewrite shownCards_permutation, list_elem_of_filter. tauto.
Qed.

(** X13.  A response that holds products, none of them from a retailer with
    a block, leaves the results area without any block, and without the
    "No products found" notice. *)
Theorem unknown_sources_leave_blank_results loading products :
  products ≠ [] →
  (∀ p, p ∈ products → Home.source p ∉ Home.retailers) →
  Home.renderResultsArea loading products = Home.Blocks [].
Proof.
  intros Hne Hstray. unfold Home.renderResultsArea.
  destruct products as [|p0 rest] eqn:Hp; [done |]. rewrite <- Hp in *.
  assert ((length products =? 0)%nat = false) as -> by by rewrite Hp.
  assert ((0 <? length products)%nat = true) as -> by by rewrite Hp.
  rewrite andb_false_r. f_equal.
  assert (∀ k, k ∈ Home.retailers → Home.fromSource k products = []) as Hnone.
  { intros k Hk. apply filter_none. intros p Hin Hs.
    apply (Hstray p Hin). by rewrite Hs. }
  unfold Home.shownBlocks, Home.retailerBlocks,
    Home.startechProducts, Home.techlandProducts, Home.ultratechProducts,
    Home.potakaitProducts, Home.pchouseProducts, Home.skylandProducts.
  rewrite !Hnone; [done | ..]; unfold Home.retailers;
    rewrite !elem_of_cons; tauto.
Qed.

(** ** The compare list over many clicks *)

Lemma addToCompare_cases (compareList : list Home.Product) product :
  (Home.key product ∈ (Home.key <$> compareList)
   ∧ Home.addToCompare compareList product = compareList)
  ∨ ((Home.key product ∉ Home.key <$> compareList)
     ∧ Home.addToCompare compareList product = compareList ++ [product]).
Proof.
  unfold Home.addToCompare.
  destruct (existsb _ compareList) eqn:He; simpl.
  - left. split; [by apply listed_iff | done].
  - right. split; [| done]. intros Hk. apply listed_iff in Hk. congruence.
Qed.

(** X14.  Adding a product twice in a row is adding it once, the product's
    name and source are listed afterwards, and the entries that were there
    stay where they were. *)
Theorem addToCompare_idempotent (compareList : list Home.Product) product :
  Home.addToCompare (Home.addToCompare compareList product) product
    = Home.addToCompare compareList product
  ∧ Home.key product ∈ Home.key <$> Home.addToCompare compareList product
  ∧ compareList `prefix_of` Home.addToCompare compareList product.
Proof.
  assert (Home.key product ∈ Home.key <$> Home.addToCompare compareList product)
    as Hin.
  { destruct (addToCompare_cases compareList product) as [[Hk ->] | [Hk ->]];
      [done |].
    rewrite fmap_app, elem_of_app. right. apply list_elem_of_here. }
  split; [| split; [done |]].
  - destruct (addToCompare_cases (Home.addToCompare compareList product) product)
      as [[_ ->] | [Hk _]]; done.
  - destruct (addToCompare_cases compareList product) as [[_ ->] | [_ ->]];
      [done | by apply prefix_app_r].
Qed.

(** X15.  Starting from a list whose entries have distinct (name, source)
    pairs, any sequence of additions keeps them distinct; the list then
    holds the pairs it had and those of the products added, and the old
    entries stay in front. *)
Theorem addToCompare_many (compareList products : list Home.Product) :
  NoDup (Home.key <$> compareList) →
  let after := fold_left Home.addToCompare products compareList in
  NoDup (Home.key <$> after)
  ∧ (∀ k, k ∈ Home.key <$> after
          ↔ k ∈ Home.key <$> compareList ∨ k ∈ Home.key <$> products)
  ∧ compareList `prefix_of` after.
Proof.
  revert compareList.
  induction products as [|p products IH]; intros compareList Hnd; simpl.
  - split; [done |]. split; [| done]. intros k. rewrite elem_of_nil. tauto.
  - destruct (addToCompare_cases compareList p) as [[Hk ->] | [Hk ->]].
    + destruct (IH compareList Hnd) as (IH1 & IH2 & IH3).
      split; [done |]. split; [| done].
      intros k. rewrite IH2, elem_of_cons. split; [tauto |].
      intros [? | [-> | ?]]; tauto.
    + destruct (IH (compareList ++ [p])) as (IH1 & IH2 & IH3).
      { rewrite fmap_app. apply NoDup_app. split; [done |].
        split; [| apply NoDup_singleton].
        intros k Hin. simpl. rewrite list_elem_of_singleton. by intros ->. }
      split; [done |]. split.
      * intros k. rewrite IH2, fmap_app, elem_of_app. simpl.
        rewrite list_elem_of_singleton, elem_of_cons. tauto.
      * etransitivity; [| exact IH3]. by apply prefix_app_r.
Qed.

(** ** The further properties on the sample data *)

Lemma no_match_others :
  (∀ c, c ∈ [1; 2]%positive →
        JSString.includes (normalizedName latin others c)
                          (normalizedQuery latin rtx4060) = false)
  ∧ prioritizeExactMatches latin others [1; 2]%positive rtx4060
    = [1; 2]%positive.
Proof.
  assert (∀ c, c ∈ [1; 2]%positive →
            JSString.includes (normalizedName latin others c)
                              (normalizedQuery latin rtx4060) = false) as Hnone.
  { intros c Hc. rewrite !elem_of_cons, elem_of_nil in Hc.
    destruct Hc as [-> | [-> | []]]; vm_compute; reflexivity. }
  split; [exact Hnone |].
  exact (prioritizeExactMatches_no_match latin others [1; 2]%positive rtx4060 Hnone).
Defined.

Lemma sections_follow_ranking_shelf :
  JSString.trim rtx4060 ≠ []
  ∧ JSString.trim (latin rtx4060) = latin rtx4060
  ∧ (let filteredComponents :=
       applyFilters latin shelf None (Some (JSString.lit "In Stock")) rtx4060
                    [3; 2; 1]%positive in
     let s := categorize latin shelf filteredComponents rtx4060 in
     exact s ++ similar s ++ other s = filteredComponents).
Proof.
  assert (JSString.trim rtx4060 ≠ []) as Hq by not_blank.
  assert (JSString.trim (latin rtx4060) = latin rtx4060) as Ht
    by (vm_compute; reflexivity).
  split; [exact Hq |]. split; [exact Ht |].
  destruct (sections_follow_ranking latin shelf None
              (Some (JSString.lit "In Stock")) rtx4060 [3; 2; 1]%positive Hq Ht)
    as (_ & _ & _ & H).
  exact H.
Defined.

Lemma techland_button_has_results :
  JSString.lit "Techland"
    ∈ sourceButtons (availableSourcesOf shelf [3; 2; 1]%positive)
  ∧ applyFilters latin shelf (Some (JSString.lit "Techland")) None rtx4060
                 [3; 2; 1]%positive ≠ [].
Proof.
  assert (JSString.lit "Techland"
            ∈ sourceButtons (availableSourcesOf shelf [3; 2; 1]%positive)) as Hs.
  { assert (sourceButtons (availableSourcesOf shelf [3; 2; 1]%positive)
            = [JSString.lit "Startech"; JSString.lit "Techland";
               JSString.lit "PC House"]) as -> by (vm_compute; reflexivity).
    apply list_elem_of_further, list_elem_of_here. }
  split; [exact Hs |].
  destruct (offered_source_has_results latin shelf [3; 2; 1]%positive
              (JSString.lit "Techland") rtx4060 Hs) as [H _].
  exact H.
Defined.

Lemma dual_amounts_twoAmounts :
  renderPrice twoAmounts
    = DualPrice (taka :: JSString.lit "12,500") (taka :: JSString.lit "13,000")
  ∧ ∃ a b, taka :: JSString.lit "12,500" = taka :: a
      ∧ taka :: JSString.lit "13,000" = taka :: b
      ∧ (a ≠ [] ∧ JSString.trim a = a ∧ taka ∉ a)
      ∧ (b ≠ [] ∧ JSString.trim b = b ∧ taka ∉ b).
Proof.
  assert (renderPrice twoAmounts
    = DualPrice (taka :: JSString.lit "12,500") (taka :: JSString.lit "13,000"))
    as Hr by (vm_compute; reflexivity).
  split; [exact Hr |].
  exact (renderPrice_dual_amounts twoAmounts _ _ Hr).
Defined.

Lemma stray_leaves_blank_results :
  [stray] ≠ []
  ∧ (∀ p, p ∈ [stray] → Home.source p ∉ Home.retailers)
  ∧ Home.renderResultsArea false [stray] = Home.Blocks [].
Proof.
  assert ([stray] ≠ []) as Hne by discriminate.
  assert (∀ p, p ∈ [stray] → Home.source p ∉ Home.retailers) as Hstray.
  { intros p Hp. apply list_elem_of_singleton in Hp as ->.
    apply (bool_decide_unpack (Home.source stray ∉ Home.retailers)).
    vm_compute. exact I. }
  split; [exact Hne |]. split; [exact Hstray |].
  exact (unknown_sources_leave_blank_results false [stray] Hne Hstray).
Defined.

Lemma addToCompare_many_sample :
  NoDup (Home.key <$> ([] : list Home.Product))
  ∧ NoDup (Home.key <$>
      fold_left Home.addToCompare
        [product "RTX 4060" "Startech"; product "RTX 4060" "Techland";
         product "RTX 4060" "Startech"] []).
Proof.
  assert (NoDup (Home.key <$> ([] : list Home.Product))) as Hnd
    by apply NoDup_nil_2.
  split; [exact Hnd |].
  destruct (addToCompare_many []
              [product "RTX 4060" "Startech"; product "RTX 4060" "Techland";
               product "RTX 4060" "Startech"] Hnd) as (H & _).
  exact H.
Defined.

(** ** The ranker on objects as they arrive *)

Section RawFacts.

Variable toLowerCase : jsstring → jsstring.
Variable rawHeap : ref → RawComponent.
Variable heap : ref → Component.

Local Abbreviation nameOf := (normalizedName toLowerCase heap).
Local Abbreviation tierOf := (tierOf toLowerCase heap).
Local Abbreviation inTier := (inTier toLowerCase heap).
Local Abbreviation lowerName := (lowerName toLowerCase rawHeap).
Local Abbreviation firstPassStepRaw := (firstPassStepRaw toLowerCase rawHeap).
Local Abbreviation secondPassStepRaw := (secondPassStepRaw toLowerCase rawHeap).
Local Abbreviation nameTest := (nameTest toLowerCase rawHeap).

(** The object carries the name the typed store gives it. *)
Local Abbreviation named c := (nameField (rawHeap c) = Some (name (heap c))).

Lemma lowerName_named c : named c → lowerName c = Returned (nameOf c).
Proof. intros Hc. unfold lowerName. by rewrite Hc. Qed.

Lemma firstPassRaw_groups nq l g :
  (∀ c, c ∈ l → named c) →
  ∃ g', forEach (firstPassStepRaw nq) l g = Returned g'
    ∧ rawExactMatches g' = rawExactMatches g ++ inTier nq Exact l
    ∧ rawStartsWithMatches g' = rawStartsWithMatches g
    ∧ rawContainsMatches g' = rawContainsMatches g
    ∧ rawOtherMatches g' = rawOtherMatches g.
Proof.
  revert g. induction l as [|c l IH]; intros g Hl.
  - exists g. cbn [forEach]. unfold inTier. by rewrite filter_nil, app_nil_r.
  - cbn [forEach]. unfold firstPassStepRaw.
    rewrite lowerName_named by (apply Hl; left).
    rewrite inTier_cons.
    assert (∀ c', c' ∈ l → named c') as Hl' by (intros; apply Hl; by right).
    case_bool_decide as Hc; case_decide as Ht;
      rewrite tierOf_Exact in Ht; try done.
    + destruct (IH (mkRawGroups (rawExactMatches g ++ [c])
                      (rawStartsWithMatches g) (rawContainsMatches g)
                      (rawOtherMatches g)
                      ({[ sourceField (rawHeap c) ]}
                       ∪ rawSourcesWithExactMatches g)) Hl')
        as (g' & Hg' & H1 & H2 & H3 & H4).
      exists g'. simpl in *. by rewrite H1, <- app_assoc.
    + by apply IH.
Qed.

Lemma secondPassStepRaw_skip nq g c :
  c ∈ rawExactMatches g → secondPassStepRaw nq g c = Returned g.
Proof.
  intros Hc. unfold secondPassStepRaw. by rewrite bool_decide_eq_true_2.
Qed.

Lemma secondPassStepRaw_sort nq g c :
  named c → c ∉ rawExactMatches g → tierOf nq c ≠ Exact →
  secondPassStepRaw nq g c =
  Returned (mkRawGroups (rawExactMatches g)
    (rawStartsWithMatches g ++ inTier nq StartsWith [c])
    (rawContainsMatches g ++ inTier nq Contains [c])
    (rawOtherMatches g ++ inTier nq Other [c])
    (rawSourcesWithExactMatches g)).
Proof.
  intros Hnamed Hc Ht. unfold secondPassStepRaw.
  rewrite bool_decide_eq_false_2 by done.
  rewrite lowerName_named by done.
  rewrite !inTier_cons. unfold inTier. rewrite !filter_nil.
  rewrite tierOf_Exact in Ht. unfold tierOf.
  rewrite (bool_decide_eq_false_2 _ Ht). cbn [andb].
  destruct (JSString.startsWith _ _); simpl.
  - rewrite !app_nil_r. by destruct g.
  - destruct (JSString.includes _ _); simpl; rewrite !app_nil_r; by destruct g.
Qed.

Lemma secondPassRaw_groups nq l g :
  (∀ c, c ∈ l → named c) →
  (∀ c, c ∈ l → tierOf nq c = Exact → c ∈ rawExactMatches g) →
  (∀ c, c ∈ rawExactMatches g → tierOf nq c = Exact) →
  ∃ g', forEach (secondPassStepRaw nq) l g = Returned g'
    ∧ rawExactMatches g' = rawExactMatches g
    ∧ rawStartsWithMatches g' = rawStartsWithMatches g ++ inTier nq StartsWith l
    ∧ rawContainsMatches g' = rawContainsMatches g ++ inTier nq Contains l
    ∧ rawOtherMatches g' = rawOtherMatches g ++ inTier nq Other l.
Proof.
  revert g. induction l as [|c l IH]; intros g Hl Hin Hex.
  - exists g. cbn [forEach]. unfold inTier. by rewrite !filter_nil, !app_nil_r.
  - cbn [forEach].
    assert (∀ c', c' ∈ l → named c') as Hl' by (intros; apply Hl; by right).
    destruct (decide (c ∈ rawExactMatches g)) as [Hc | Hc].
    + rewrite secondPassStepRaw_skip by done.
      destruct (IH g Hl') as (g' & Hg' & H1 & H2 & H3 & H4);
        [intros; apply Hin; [by right | done] | done |].
      exists g'. rewrite !inTier_cons, (Hex c Hc). by repeat case_decide.
    + assert (tierOf nq c ≠ Exact) as Ht.
      { intros Ht. apply Hc, Hin; [by left | done]. }
      rewrite secondPassStepRaw_sort by (done || apply Hl; left).
      match goal with
      | |- ∃ _, forEach _ _ ?g0 = _ ∧ _ =>
          destruct (IH g0 Hl') as (g' & Hg' & H1 & H2 & H3 & H4)
      end.
      { intros; apply Hin; [by right | done]. }
      { done. }
      exists g'. simpl in *. rewrite H1, H2, H3, H4.
      split; [done |]. split; [done |].
      rewrite <- !app_assoc. unfold inTier. by rewrite <- !filter_app.
Qed.

Lemma prioritizeExactMatchesRaw_named components query :
  (∀ c, c ∈ components → named c) →
  prioritizeExactMatchesRaw toLowerCase rawHeap components query
  = Returned (prioritizeExactMatches toLowerCase heap components query).
Proof.
  intros Hl. unfold prioritizeExactMatchesRaw.
  set (nq := JSString.trim (toLowerCase query)).
  destruct (firstPassRaw_groups nq components noRawGroups Hl)
    as (g1 & -> & H1 & H2 & H3 & H4).
  simpl in H1, H2, H3, H4.
  destruct (secondPassRaw_groups nq components g1 Hl)
    as (g & -> & G1 & G2 & G3 & G4).
  { intros c Hc Ht. rewrite H1. by apply elem_of_inTier. }
  { intros c. rewrite H1. intros Hc. by apply elem_of_inTier in Hc as [? _]. }
  rewrite G1, G2, G3, G4, H1, H2, H3, H4. simpl.
  by rewrite prioritizeExactMatches_tiers.
Qed.

Lemma filterThrowing_named (test : jsstring → bool) l :
  (∀ c, c ∈ l → named c) →
  filterThrowing (nameTest test) l = Returned (filter (λ c, test (nameOf c)) l).
Proof.
  induction l as [|c l IH]; intros Hl; [done |].
  cbn [filterThrowing]. unfold nameTest at 1.
  rewrite lowerName_named by (apply Hl; left).
  rewrite IH by (intros; apply Hl; by right).
  rewrite filter_cons. by destruct (test (nameOf c)).
Qed.

(** C7, as amended.  When every item carries a name (an empty one
    included; the source may be anything, or missing), [rank] and
    [categorize] raise nothing and return the result computed from the
    names; on the empty list [rank] returns the empty list and [categorize]
    three empty sections, whatever the query. *)
Theorem ranker_returns_when_named items query :
  (∀ c, c ∈ items → nameField (rawHeap c) = Some (name (heap c))) →
  rankRaw toLowerCase rawHeap items query
    = Returned (rank toLowerCase heap items query)
  ∧ categorizeRaw toLowerCase rawHeap items query
    = Returned (categorize toLowerCase heap items query)
  ∧ rankRaw toLowerCase rawHeap [] query = Returned []
  ∧ categorizeRaw toLowerCase rawHeap [] query = Returned (mkSections [] [] []).
Proof.
  intros Hl. split; [| split; [| split]].
  - unfold rankRaw.
    destruct (JSString.truthy (JSString.trim query)) eqn:Hq.
    + apply truthy_true in Hq.
      rewrite rank_searching by done.
      by apply prioritizeExactMatchesRaw_named.
    + rewrite rank_blank; [done |]. by destruct (JSString.trim query).
  - unfold categorizeRaw. rewrite !filterThrowing_named by done.
    unfold categorize. f_equal. f_equal.
    + apply list_filter_iff. intros c. by rewrite bool_decide_spec.
    + apply list_filter_iff. intros c.
      rewrite andb_True, negb_True, bool_decide_spec. done.
    + apply list_filter_iff. intros c.
      rewrite andb_True, !negb_True, bool_decide_spec. done.
  - unfold rankRaw. by destruct (JSString.truthy (JSString.trim query)).
  - done.
Qed.

End RawFacts.

(** Against C3 as stated: the second name is the query once trimmed and
    lower-cased, the first only contains it, and the first stays in front. *)
Lemma padded_exact_follows_contains :
  ¬ (∀ (a b : ref) (i j : nat),
       JSString.trim (latin (name (mixed a))) = JSString.trim (latin rtx4060) →
       JSString.includes (JSString.trim (latin (name (mixed b))))
                         (JSString.trim (latin rtx4060)) = true →
       JSString.startsWith (JSString.trim (latin (name (mixed b))))
                           (JSString.trim (latin rtx4060)) = false →
       rank latin mixed [1; 2]%positive rtx4060 !! i = Some a →
       rank latin mixed [1; 2]%positive rtx4060 !! j = Some b →
       (i < j)%nat).
Proof.
  intros H.
  assert (1 < 0)%nat as Habs; [| lia].
  apply (H 2%positive 1%positive 1%nat 0%nat); vm_compute; reflexivity.
Qed.

(** Against C7 as stated: an object without a name, a query that is not
    blank; reading the name raises. *)
Lemma missing_name_raises :
  ¬ (∃ out, rankRaw latin anonymous [1%positive] rtx4060 = Returned out).
Proof. intros [out H]. vm_compute in H. discriminate H. Qed.

Lemma ranker_returns_shelf :
  (∀ c, c ∈ [3; 2; 1]%positive →
        nameField (shelfArrived c) = Some (name (shelf c)))
  ∧ rankRaw latin shelfArrived [3; 2; 1]%positive rtx4060
    = Returned (rank latin shelf [3; 2; 1]%positive rtx4060)
  ∧ categorizeRaw latin shelfArrived [3; 2; 1]%positive rtx4060
    = Returned (categorize latin shelf [3; 2; 1]%positive rtx4060).
Proof.
  assert (∀ c, c ∈ [3; 2; 1]%positive →
            nameField (shelfArrived c) = Some (name (shelf c))) as Hnamed
    by (intros c _; reflexivity).
  split; [exact Hnamed |].
  destruct (ranker_returns_when_named latin shelfArrived shelf
              [3; 2; 1]%positive rtx4060 Hnamed) as (H1 & H2 & _).
  split; [exact H1 | exact H2].
Defined.
